(** * libevmasm/Inliner.cpp: the assembly-level inliner

    A shallow embedding of [Inliner::isInlineCandidate],
    [Inliner::determineInlinableBlocks], [executionCost], [codeSize],
    [Inliner::shouldInlineFullFunctionBody], [Inliner::shouldInline] and
    [Inliner::optimise], and the properties of them that the specification
    states.

    Conventions.
    - [uint64_t], [unsigned] and [u256] values are integers of [Z] with the
      wrap-around of every operation written out; [bigint] is [Z] itself.
    - [std::map<u256, _>] is a [gmap] keyed by the tag.
    - [assertThrow] and the two places where C++ leaves the behaviour
      undefined are results of the [outcome] type. *)

From Stdlib Require Import ZArith List Lia Bool.
From stdpp Require Import base option list gmap fin_maps.

Local Open Scope Z_scope.

(** ** Results of fallible code *)

Inductive failure : Type :=
| OptimizerException   (* thrown by [assertThrow(_, OptimizerException, _)] *)
| UndefinedBehaviour   (* [back()] of an empty range, reading past the end *)
| OutOfFuel.           (* the bound on loop iterations of the model ran out *)

Inductive outcome (A : Type) : Type :=
| Ret (a : A)
| Fail (f : failure).

Arguments Ret {A} a.
Arguments Fail {A} f.

(** Sequencing stops at the first failure, as an exception does. *)
#[global] Instance outcome_bind : MBind outcome :=
  fun A B (k : A -> outcome B) (m : outcome A) =>
    match m with
    | Ret a => k a
    | Fail f => Fail f
    end.

(** ** Assembly items *)

(** Modelled from the spec: [enum AssemblyItemType] of libevmasm/AssemblyItem.h,
    which is not among the sources.  The pass inspects [Operation], [PushTag]
    (the spec's PushLabel) and [Tag] (the spec's LabelMarker); the other kinds
    of item only pass through it. *)
Inductive AssemblyItemType : Type :=
| UndefinedItem | Operation | Push | PushTag | PushSub | PushSubSize
| PushProgramSize | Tag | PushData | PushLibraryAddress
| PushDeployTimeAddress | PushImmutable | AssignImmutable | VerbatimBytecode.

(** Modelled from the spec: [AssemblyItem::JumpType], the classification of a
    jump as ordinary, into a call or out of a call. *)
Inductive JumpType : Type := Ordinary | IntoFunction | OutOfFunction.

#[global] Instance AssemblyItemType_eq_dec : EqDecision AssemblyItemType.
Proof. solve_decision. Defined.

#[global] Instance JumpType_eq_dec : EqDecision JumpType.
Proof. solve_decision. Defined.

(** [enum class Instruction: uint8_t]: an opcode is its byte. *)
Definition Instruction : Type := N.
Definition ADD : Instruction := 0x01%N.
Definition JUMP : Instruction := 0x56%N.
Definition JUMPI : Instruction := 0x57%N.

(** [u256] as used for the data of an item (a tag). *)
Definition u256 : Type := N.

(** Modelled from the spec: [class AssemblyItem] of libevmasm/AssemblyItem.h,
    which is not among the sources.  An item has a kind, an opcode (read
    when the kind is [Operation]), a datum (read otherwise: the label of a
    [PushTag] or a [Tag]) and a jump classification, the one field that can
    be written after construction. *)
Record AssemblyItem : Type := mkAssemblyItem {
  type : AssemblyItemType;
  instruction : Instruction;
  data : u256;
  getJumpType : JumpType
}.

(** [AssemblyItem{_type, _data}] for a kind other than [Operation], and
    [AssemblyItem{_type}], whose datum defaults to 0. *)
Definition AssemblyItem_of_type (_type : AssemblyItemType) (_data : u256) : AssemblyItem :=
  {| type := _type; instruction := 0%N; data := _data; getJumpType := Ordinary |}.

(** [AssemblyItem{_instruction}]: an operation, classified [Ordinary]. *)
Definition AssemblyItem_of_instruction (_i : Instruction) : AssemblyItem :=
  {| type := Operation; instruction := _i; data := 0%N; getJumpType := Ordinary |}.

(** Modelled from the spec: [AssemblyItem::operator==(AssemblyItem const&)];
    items are compared by kind and then by opcode (operations) or datum
    (others); the jump classification takes no part. *)
Definition item_eq (a b : AssemblyItem) : bool :=
  bool_decide (type a = type b) &&
  (if bool_decide (type a = Operation)
   then bool_decide (instruction a = instruction b)
   else bool_decide (data a = data b)).

(** Modelled from the spec: [AssemblyItem::operator==(Instruction)], the
    opcode identity of an item. *)
Definition is_instruction (a : AssemblyItem) (_instr : Instruction) : bool :=
  bool_decide (type a = Operation) && bool_decide (instruction a = _instr).

(** Modelled from the spec: [AssemblyItem::setJumpType], the copy with the
    classification overridden. *)
Definition setJumpType (_jumpType : JumpType) (a : AssemblyItem) : AssemblyItem :=
  {| type := type a; instruction := instruction a; data := data a;
     getJumpType := _jumpType |}.

Definition AssemblyItems : Type := list AssemblyItem.

(** ** Fixed-width arithmetic *)

Definition wrap32 (x : Z) : Z := x mod 2 ^ 32.
Definition wrap64 (x : Z) : Z := x mod 2 ^ 64.
Definition wrap256 (x : Z) : Z := x mod 2 ^ 256.
Definition u256_max : Z := 2 ^ 256 - 1.

(** Modelled from the spec: [GasMeter::GasConsumption] of libevmasm/GasMeter.h,
    an estimate that is a [u256] or unbounded, and its addition, which
    is unbounded as soon as a term is or the sum leaves [u256]. *)
Record GasConsumption : Type := mkGasConsumption {
  value : Z;
  isInfinite : bool
}.

Definition GasConsumption_zero : GasConsumption :=
  {| value := 0; isInfinite := false |}.

Definition GasConsumption_infinite : GasConsumption :=
  {| value := 0; isInfinite := true |}.

Definition GasConsumption_add (a b : GasConsumption) : GasConsumption :=
  if isInfinite a || isInfinite b then GasConsumption_infinite
  else if bool_decide (u256_max < value a + value b) then GasConsumption_infinite
  else {| value := value a + value b; isInfinite := false |}.

(** ** The state of the inliner's data *)

(** [struct InlinableBlock { span<AssemblyItem const> items; uint64_t pushTagCount; }].
    The span is a window on [m_items], which [optimise] reads but does not
    write before its last statement, so the window is the list of items it
    shows. *)
Record InlinableBlock : Type := mkInlinableBlock {
  items : AssemblyItems;
  pushTagCount : Z
}.

(** ** The collaborators of the pass

    libevmasm/SemanticInformation.h, GasMeter.h and AssemblyItem.h are not
    among the sources: what the pass calls of them is an interface, and every
    definition and theorem below holds for each implementation of it. *)
Class Collaborators : Type := {
  EVMVersion : Type;
  GasMeter : Type;
  (** [SemanticInformation::breaksCSEAnalysisBlock(_item, _msizeImportant)] *)
  breaksCSEAnalysisBlock : AssemblyItem -> bool -> bool;
  (** [GasMeter{std::make_shared<KnownState>(), _evmVersion}] *)
  newGasMeter : EVMVersion -> GasMeter;
  (** [GasMeter::estimateMax(_item, _includeExternalCosts)], which also
      feeds the item to the meter's state *)
  estimateMax : GasMeter -> AssemblyItem -> bool -> GasConsumption * GasMeter;
  (** [AssemblyItem::bytesRequired(_addressLength)] *)
  bytesRequired : AssemblyItem -> Z -> Z;
  (** [GasMeter::dataGas(_length, _inCreation, _evmVersion)] *)
  dataGas : Z -> bool -> EVMVersion -> Z
}.

(** The members of [Inliner] besides [m_items]. *)
Record Inliner `{Collaborators} : Type := mkInliner {
  m_runs : Z;
  m_isCreation : bool;
  m_evmVersion : EVMVersion
}.

(** [_items | ranges::views::slice(from, to)]. *)
Definition slice {A : Type} (from to : nat) (l : list A) : list A :=
  take (to - from)%nat (drop from l).

(** [ranges::views::drop_last(_block, 1)]. *)
Definition drop_last {A : Type} (l : list A) : list A :=
  take (length l - 1)%nat l.

(** The range with [f] applied to its last element: what
    [newItems.back().setJumpType(_)] does to [newItems]. *)
Definition update_back {A : Type} (f : A -> A) (l : list A) : list A :=
  match last l with
  | Some x => drop_last l ++ [f x]
  | None => l
  end.

#[global] Instance AssemblyItem_eq_dec : EqDecision AssemblyItem.
Proof. solve_decision. Defined.

#[global] Instance InlinableBlock_eq_dec : EqDecision InlinableBlock.
Proof. solve_decision. Defined.

(** The variables of [determineInlinableBlocks] that its loop updates. *)
Record ScanState : Type := mkScanState {
  inlinableBlockItems : gmap u256 AssemblyItems;
  numPushTags : gmap u256 Z;
  lastTag : option nat
}.

(** The variables of the loop of [optimise]: the iterator [it], as the items
    from its position to the end of [m_items], the output [newItems] and the
    map [inlinableBlocks], whose counters the loop updates. *)
Record LoopState : Type := mkLoopState {
  it : AssemblyItems;
  newItems : AssemblyItems;
  inlinableBlocks : gmap u256 InlinableBlock
}.

(** ** An implementation of the collaborators to run the pass on

    A stand-in for the collaborators, which are not among the sources: the
    costs are those of the EVM's gas schedule for the items that the call
    and return idioms are made of.  Only the concrete runs at the end of the
    file use it; every theorem of the section below holds for each
    implementation. *)
Module EVM.

Definition breaksCSEAnalysisBlock (_item : AssemblyItem) (_msizeImportant : bool) : bool :=
  match type _item with
  | Operation => bool_decide (instruction _item = JUMP) || bool_decide (instruction _item = JUMPI)
  | Tag => true
  | _ => false
  end.

Definition estimateMax (_meter : unit) (_item : AssemblyItem) (_includeExternalCosts : bool)
  : GasConsumption * unit :=
  (match type _item with
   | Operation =>
       if bool_decide (instruction _item = JUMP) then mkGasConsumption 8 false
       else if bool_decide (instruction _item = JUMPI) then mkGasConsumption 10 false
       else mkGasConsumption 3 false
   | Tag => mkGasConsumption 1 false
   | _ => mkGasConsumption 3 false
   end, tt).

Definition bytesRequired (_item : AssemblyItem) (_addressLength : Z) : Z :=
  match type _item with
  | PushTag => 1 + _addressLength
  | Push => 2
  | _ => 1
  end.

Definition dataGas (_length : Z) (_inCreation : bool) (_evmVersion : unit) : Z :=
  if _inCreation then 16 * _length else 200 * _length.

Definition collaborators : Collaborators :=
  Build_Collaborators unit unit
    breaksCSEAnalysisBlock (fun _ => tt) estimateMax bytesRequired dataGas.

(** An inliner for deployed code that is expected to run [runs] times. *)
Definition inliner (runs : Z) : @Inliner collaborators :=
  @mkInliner collaborators runs false tt.

Definition tag (t : u256) : AssemblyItem := AssemblyItem_of_type Tag t.
Definition pushTag (t : u256) : AssemblyItem := AssemblyItem_of_type PushTag t.
Definition op (i : Instruction) : AssemblyItem := AssemblyItem_of_instruction i.
Definition jump (j : JumpType) : AssemblyItem := setJumpType j (op JUMP).

(** Scenario A of the specification: a block and one call of it. *)
Definition scenarioA : AssemblyItems :=
  [tag 1; op ADD; jump OutOfFunction; pushTag 1; jump IntoFunction]%N.

(** Scenario B: the block of scenario A with a [PushTag] of its own tag. *)
Definition scenarioB : AssemblyItems :=
  [tag 1; pushTag 1; op ADD; jump OutOfFunction; pushTag 1; jump IntoFunction]%N.

(** A program without a jump. *)
Definition straight : AssemblyItems := [tag 1; op ADD; pushTag 1]%N.

(** A call that comes before the block it calls, whose body ends in a
    call site of a second block. *)
Definition callFirst : AssemblyItems :=
  [pushTag 1; jump IntoFunction;
   tag 1; op ADD; pushTag 2; jump OutOfFunction;
   tag 2; op ADD; jump OutOfFunction]%N.

Definition callFirstBlocks : gmap u256 InlinableBlock :=
  <[1%N := {| items := [op ADD; pushTag 2%N; jump OutOfFunction]; pushTagCount := 1 |}]>
    (<[2%N := {| items := [op ADD; jump OutOfFunction]; pushTagCount := 1 |}]> ∅).

(** The state of the loop of [optimise] when it starts on [callFirst], and
    the state after its first iteration. *)
Definition callFirstStart : LoopState :=
  {| it := callFirst; newItems := []; inlinableBlocks := callFirstBlocks |}.

Definition callFirstNext : LoopState :=
  {| it := [tag 1; op ADD; pushTag 2; jump OutOfFunction;
            tag 2; op ADD; jump OutOfFunction]%N;
     newItems := [op ADD; pushTag 2%N; jump Ordinary];
     inlinableBlocks :=
       <[1%N := {| items := [op ADD; pushTag 2%N; jump OutOfFunction];
                   pushTagCount := 0 |}]>
         (<[2%N := {| items := [op ADD; jump OutOfFunction]; pushTagCount := 2 |}]> ∅) |}.




(** Scenario A with the call classified as an ordinary jump. *)
Definition ordinaryCall : AssemblyItems :=
  [tag 1; op ADD; jump OutOfFunction; pushTag 1; jump Ordinary]%N.

End EVM.

Section Inliner.

Context `{Collaborators}.

(** *** [Inliner::isInlineCandidate] *)

Definition isInlineCandidate (_tag : u256) (_items : AssemblyItems) : outcome bool :=
  if bool_decide (0 < length _items)%nat then
    match last _items with
    | None => Fail UndefinedBehaviour
    | Some back =>
        if negb (is_instruction back JUMP) then Ret false
        else if existsb (fun item => item_eq item (AssemblyItem_of_type PushTag _tag)) _items
             then Ret false
             else Ret true
    end
  else Fail OptimizerException.

(** *** [Inliner::determineInlinableBlocks] *)

(** One iteration of the loop over [_items | ranges::views::enumerate]. *)
Definition scanItem (_items : AssemblyItems) (index : nat) (item : AssemblyItem)
  (st : ScanState) : outcome ScanState :=
  let numPushTags' :=
    if bool_decide (type item = PushTag)
    then <[data item := wrap64 (default 0 (numPushTags st !! data item) + 1)]> (numPushTags st)
    else numPushTags st in
  '(inlinableBlockItems', lastTag') ←
    match lastTag st with
    | Some lastTagIndex =>
        if breaksCSEAnalysisBlock item false then
          let block := slice (lastTagIndex + 1) (index + 1) _items in
          match _items !! lastTagIndex with
          | None => Fail UndefinedBehaviour
          | Some tagItem =>
              let tag := data tagItem in
              candidate ← isInlineCandidate tag block;
              Ret (if candidate : bool
                   then <[tag := block]> (inlinableBlockItems st)
                   else inlinableBlockItems st, None)
          end
        else Ret (inlinableBlockItems st, Some lastTagIndex)
    | None => Ret (inlinableBlockItems st, None)
    end;
  Ret {| inlinableBlockItems := inlinableBlockItems';
         numPushTags := numPushTags';
         lastTag := if bool_decide (type item = Tag) then Some index else lastTag' |}.

Fixpoint scanLoop (_items : AssemblyItems) (index : nat) (rest : AssemblyItems)
  (st : ScanState) : outcome ScanState :=
  match rest with
  | [] => Ret st
  | item :: rest' =>
      st' ← scanItem _items index item st;
      scanLoop _items (S index) rest' st'
  end.

Definition determineInlinableBlocks (_items : AssemblyItems)
  : outcome (gmap u256 InlinableBlock) :=
  st ← scanLoop _items 0%nat _items
         {| inlinableBlockItems := ∅; numPushTags := ∅; lastTag := None |};
  Ret (map_imap
         (fun tag items =>
            match numPushTags st !! tag with
            | Some numPushes => Some {| items := items; pushTagCount := numPushes |}
            | None => None
            end)
         (inlinableBlockItems st)).

(** *** [executionCost] and [codeSize] *)

Definition executionCost (_itemRange : AssemblyItems) (_evmVersion : EVMVersion) : Z :=
  let gasConsumption :=
    fst (fold_left
           (fun '(sum, gasMeter) _item =>
              let '(gas, gasMeter') := estimateMax gasMeter _item false in
              (GasConsumption_add sum gas, gasMeter'))
           _itemRange (GasConsumption_zero, newGasMeter _evmVersion)) in
  if isInfinite gasConsumption then u256_max else value gasConsumption.

(** The accumulator of [ranges::accumulate(_, 0u)] is an [unsigned]: each
    sum is taken in [size_t] and stored back in 32 bits. *)
Definition codeSize (_itemRange : AssemblyItems) : Z :=
  fold_left (fun sum _item => wrap32 (wrap64 (sum + bytesRequired _item 2)))
    _itemRange 0.

(** *** [Inliner::shouldInlineFullFunctionBody] *)

Definition uninlinedCallSitePattern : AssemblyItems :=
  [ AssemblyItem_of_type PushTag 0%N;
    AssemblyItem_of_type PushTag 0%N;
    AssemblyItem_of_instruction JUMP;
    AssemblyItem_of_type Tag 0%N ].

Definition uninlinedFunctionPattern : AssemblyItems :=
  [ AssemblyItem_of_type Tag 0%N;
    AssemblyItem_of_instruction JUMP ].

Definition shouldInlineFullFunctionBody (this : Inliner)
  (_block : AssemblyItems) (_pushTagCount : Z) : bool :=
  let functionBodySize := codeSize (drop_last _block) in
  let numberOfCalls := _pushTagCount in
  let numberOfCallSites := _pushTagCount in
  let uninlinedExecutionCost :=
    wrap256 (numberOfCalls *
             wrap256 (executionCost uninlinedCallSitePattern (m_evmVersion this) +
                      executionCost uninlinedFunctionPattern (m_evmVersion this))) in
  let uninlinedDepositCost :=
    dataGas
      (wrap64 (wrap64 (wrap64 (numberOfCallSites * codeSize uninlinedCallSitePattern) +
                       codeSize uninlinedFunctionPattern) +
               functionBodySize))
      (m_isCreation this) (m_evmVersion this) in
  let inlinedDepositCost :=
    dataGas (wrap64 (numberOfCallSites * functionBodySize))
      (m_isCreation this) (m_evmVersion this) in
  m_runs this * uninlinedExecutionCost + uninlinedDepositCost >? inlinedDepositCost.

(** *** [Inliner::shouldInline] *)

Definition shouldInline (this : Inliner) (_jump : AssemblyItem)
  (_block : InlinableBlock) : outcome (option JumpType) :=
  match last (items _block) with
  | None => Fail UndefinedBehaviour
  | Some exitJump =>
      if is_instruction _jump JUMP && is_instruction exitJump JUMP then
        if bool_decide (getJumpType _jump = IntoFunction) &&
           bool_decide (getJumpType exitJump = OutOfFunction)
        then Ret (if shouldInlineFullFunctionBody this (items _block) (pushTagCount _block)
                  then Some Ordinary else None)
        else Ret None
      else Fail OptimizerException
  end.

(** *** [Inliner::optimise] *)

(** [++block->pushTagCount] for every [PushTag] of the inlined items whose
    tag has an entry in the map. *)
Definition countInlinedPushTags (inlinedItems : AssemblyItems)
  (blocks : gmap u256 InlinableBlock) : gmap u256 InlinableBlock :=
  fold_left
    (fun blocks inlinedItem =>
       if bool_decide (type inlinedItem = PushTag) then
         match blocks !! data inlinedItem with
         | Some block =>
             <[data inlinedItem :=
                 {| items := items block;
                    pushTagCount := wrap64 (pushTagCount block + 1) |}]> blocks
         | None => blocks
         end
       else blocks)
    inlinedItems blocks.

(** One iteration of the loop of [optimise], with the [++it] that ends it. *)
Definition loopIteration (this : Inliner) (s : LoopState) : outcome LoopState :=
  match it s with
  | [] => Fail UndefinedBehaviour
  | item :: rest =>
      let emplace_back :=
        Ret {| it := rest; newItems := newItems s ++ [item];
               inlinableBlocks := inlinableBlocks s |} in
      match rest with
      | nextItem :: rest' =>
          if bool_decide (type item = PushTag) && is_instruction nextItem JUMP then
            match inlinableBlocks s !! data item with
            | Some inlinableBlock =>
                exitJumpType ← shouldInline this nextItem inlinableBlock;
                match exitJumpType with
                | Some jumpType =>
                    let newItems' :=
                      update_back (setJumpType jumpType)
                        (newItems s ++ items inlinableBlock) in
                    let decremented :=
                      <[data item :=
                          {| items := items inlinableBlock;
                             pushTagCount := wrap64 (pushTagCount inlinableBlock - 1) |}]>
                        (inlinableBlocks s) in
                    Ret {| it := rest'; newItems := newItems';
                           inlinableBlocks :=
                             countInlinedPushTags (items inlinableBlock) decremented |}
                | None => emplace_back
                end
            | None => emplace_back
            end
          else emplace_back
      | [] => emplace_back
      end
  end.

(** The loop [for (it = m_items.begin(); it != m_items.end(); ++it)]; every
    iteration moves [it] forward, so [length m_items] iterations are enough. *)
Fixpoint forLoop (this : Inliner) (fuel : nat) (s : LoopState)
  : outcome LoopState :=
  match it s with
  | [] => Ret s
  | _ :: _ =>
      match fuel with
      | O => Fail OutOfFuel
      | S fuel' => s' ← loopIteration this s; forLoop this fuel' s'
      end
  end.

Definition optimise (this : Inliner) (m_items : AssemblyItems)
  : outcome AssemblyItems :=
  blocks ← determineInlinableBlocks m_items;
  if bool_decide (blocks = ∅) then Ret m_items
  else
    s ← forLoop this (length m_items)
          {| it := m_items; newItems := []; inlinableBlocks := blocks |};
    Ret (newItems s).

(** ** The specification's side *)

(** The sum of the encoded lengths of a range, as an exact integer. *)
Definition exactCodeSize (_itemRange : AssemblyItems) : Z :=
  fold_right (fun _item sum => bytesRequired _item 2 + sum) 0 _itemRange.

(** The decision rule of the specification, every quantity an exact
    integer. *)
Definition exactInlineRule (this : Inliner) (block : AssemblyItems)
  (referenceCount : Z) : Prop :=
  let bodySize := exactCodeSize (drop_last block) in
  let uninlinedExecCost :=
    referenceCount *
    (executionCost uninlinedCallSitePattern (m_evmVersion this) +
     executionCost uninlinedFunctionPattern (m_evmVersion this)) in
  let uninlinedDeposit :=
    dataGas (referenceCount * exactCodeSize uninlinedCallSitePattern +
             exactCodeSize uninlinedFunctionPattern + bodySize)
      (m_isCreation this) (m_evmVersion this) in
  let inlinedDeposit :=
    dataGas (referenceCount * bodySize) (m_isCreation this) (m_evmVersion this) in
  m_runs this * uninlinedExecCost + uninlinedDeposit > inlinedDeposit.

(** No intermediate value of [shouldInlineFullFunctionBody] leaves the width
    of the type it is computed in: the code sizes 32 bits, the two deposit
    sizes 64 bits, the execution cost 256 bits. *)
Definition fitsFixedWidth (this : Inliner) (block : AssemblyItems)
  (referenceCount : Z) : Prop :=
  let bodySize := exactCodeSize (drop_last block) in
  let execCost :=
    executionCost uninlinedCallSitePattern (m_evmVersion this) +
    executionCost uninlinedFunctionPattern (m_evmVersion this) in
  (forall item, 0 <= bytesRequired item 2) /\
  bodySize < 2 ^ 32 /\
  exactCodeSize uninlinedCallSitePattern < 2 ^ 32 /\
  exactCodeSize uninlinedFunctionPattern < 2 ^ 32 /\
  0 <= referenceCount /\
  referenceCount * exactCodeSize uninlinedCallSitePattern +
    exactCodeSize uninlinedFunctionPattern + bodySize < 2 ^ 64 /\
  referenceCount * bodySize < 2 ^ 64 /\
  0 <= execCost /\
  referenceCount * execCost < 2 ^ 256.

(** The inliner [this] with another number of expected runs. *)
Definition withRuns (this : Inliner) (runs : Z) : Inliner :=
  {| m_runs := runs; m_isCreation := m_isCreation this;
     m_evmVersion := m_evmVersion this |}.

(** The item is a [PushTag] of the tag [L]. *)
Definition isPushTagOf (L : u256) (item : AssemblyItem) : bool :=
  bool_decide (type item = PushTag) && bool_decide (data item = L).

(** The number of [PushTag]s of the tag [L] in a range. *)
Fixpoint pushTagOccurrences (L : u256) (l : AssemblyItems) : nat :=
  match l with
  | [] => 0%nat
  | item :: l' => ((if isPushTagOf L item then 1 else 0) + pushTagOccurrences L l')%nat
  end.

(** [block] is the range of [_items] that starts after a [Tag] of [L] and
    runs up to and including a later item. *)
Definition blockOf (_items : AssemblyItems) (L : u256) (block : AssemblyItems) : Prop :=
  exists lastTagIndex index tagItem,
    (lastTagIndex < index < length _items)%nat /\
    _items !! lastTagIndex = Some tagItem /\
    type tagItem = Tag /\ data tagItem = L /\
    block = slice (lastTagIndex + 1) (index + 1) _items.

(** What the loop of [determineInlinableBlocks] keeps true, before the
    iteration on the item at [index]. *)
Record scanInvariant (_items : AssemblyItems) (index : nat) (st : ScanState) : Prop := {
  scan_blocks : forall L block,
    inlinableBlockItems st !! L = Some block ->
    blockOf _items L block /\ isInlineCandidate L block = Ret true;
  scan_tally : forall L,
    numPushTags st !! L =
    if decide (pushTagOccurrences L (take index _items) = 0%nat) then None
    else Some (wrap64 (Z.of_nat (pushTagOccurrences L (take index _items))));
  scan_lastTag : forall lastTagIndex,
    lastTag st = Some lastTagIndex ->
    (lastTagIndex < index)%nat /\
    exists tagItem, _items !! lastTagIndex = Some tagItem /\ type tagItem = Tag
}.

(** The body of every block of the map, without its counter. *)
Definition bodies (blocks : gmap u256 InlinableBlock) : gmap u256 AssemblyItems :=
  items <$> blocks.

(** Every body ends in a [JUMP]. *)
Definition endInJUMP (bodies : gmap u256 AssemblyItems) : Prop :=
  forall L body, bodies !! L = Some body ->
    exists back, last body = Some back /\ is_instruction back JUMP = true.

(** [Substitution bodies program output]: [output] is [program] with some of
    its call sites, a [PushTag] of a tag with a body followed by a [JUMP],
    each replaced by that body with the classification of its last item set
    to [Ordinary]; every other item stays, in the order of the program. *)
Inductive Substitution (bodies : gmap u256 AssemblyItems)
  : AssemblyItems -> AssemblyItems -> Prop :=
| Substitution_end :
    Substitution bodies [] []
| Substitution_keep item rest out :
    Substitution bodies rest out ->
    Substitution bodies (item :: rest) (item :: out)
| Substitution_inline item nextItem rest out body :
    type item = PushTag ->
    is_instruction nextItem JUMP = true ->
    bodies !! data item = Some body ->
    Substitution bodies rest out ->
    Substitution bodies (item :: nextItem :: rest)
      (update_back (setJumpType Ordinary) body ++ out).

(** The counters after the call site of [tag] is replaced by [inlined]: one
    less for [tag], and one more for each [PushTag] of an entry's tag in
    [inlined], as exact integers. *)
Definition recount (tag : u256) (inlined : AssemblyItems)
  (blocks : gmap u256 InlinableBlock) : gmap u256 InlinableBlock :=
  map_imap
    (fun L block =>
       Some {| items := items block;
               pushTagCount :=
                 pushTagCount block - (if decide (L = tag) then 1 else 0) +
                 Z.of_nat (pushTagOccurrences L inlined) |})
    blocks.

(** The states of the loop of [optimise] from the state [s0] on. *)
Inductive visits (this : Inliner) (s0 : LoopState) : LoopState -> Prop :=
| visits_first : visits this s0 s0
| visits_next s s' :
    visits this s0 s -> it s <> [] -> loopIteration this s = Ret s' ->
    visits this s0 s'.

(** What the loop of [optimise] keeps true on a program of [n] items: a
    counter is at least the number of [PushTag]s of its tag that the loop
    has yet to read, and no more than [n] for each item read and [n]. *)
Record loopInvariant (n : nat) (s : LoopState) : Prop := {
  loop_position : (length (it s) <= n)%nat;
  loop_bodies : endInJUMP (bodies (inlinableBlocks s));
  loop_counts : forall L block,
    inlinableBlocks s !! L = Some block ->
    (length (items block) <= n)%nat /\
    Z.of_nat (pushTagOccurrences L (it s)) <= pushTagCount block /\
    pushTagCount block <= Z.of_nat n * (1 + Z.of_nat (n - length (it s)))
}.

(** ** Further properties: what they speak of *)

(** The estimates that [executionCost] adds up: [estimateMax] of each item
    in turn, the meter passed on from one item to the next. *)
Fixpoint estimates (gasMeter : GasMeter) (_itemRange : AssemblyItems)
  : list GasConsumption :=
  match _itemRange with
  | [] => []
  | _item :: rest =>
      let '(gas, gasMeter') := estimateMax gasMeter _item false in
      gas :: estimates gasMeter' rest
  end.

(** The sum of the values of a list of estimates, as an exact integer. *)
Definition totalGas (gs : list GasConsumption) : Z :=
  fold_right (fun gas sum => value gas + sum) 0 gs.

(** No [PushTag] of the range is followed by a [JUMP] that is classified
    [IntoFunction]. *)
Fixpoint noCallIntoFunction (l : AssemblyItems) : Prop :=
  match l with
  | item :: rest =>
      match rest with
      | nextItem :: _ =>
          ~ (type item = PushTag /\ is_instruction nextItem JUMP = true /\
             getJumpType nextItem = IntoFunction)
      | [] => True
      end /\ noCallIntoFunction rest
  | [] => True
  end.

(** The range is straight-line code: its last item, and no other, ends a
    block of the analysis, and no item is a [Tag]. *)
Definition straightLine (block : AssemblyItems) : Prop :=
  forall (j : nat) item, block !! j = Some item ->
    type item <> Tag /\
    (breaksCSEAnalysisBlock item false = true <-> S j = length block).

(** The [Tag] items of a range, in order. *)
Definition tagItems (l : list AssemblyItem) : list AssemblyItem :=
  filter (fun item => type item = Tag) l.

(** Every counter is the number of [PushTag]s of its tag in the output so
    far followed by the items that the loop has yet to read. *)
Definition countsExact (s : LoopState) : Prop :=
  forall L block, inlinableBlocks s !! L = Some block ->
    pushTagCount block = Z.of_nat (pushTagOccurrences L (newItems s ++ it s)).

(** [Substitution] with the eligibility of each call site replaced: its
    [JUMP] is classified [IntoFunction] and the last item of the body
    [OutOfFunction]. *)
Inductive EligibleSubstitution (bodies : gmap u256 AssemblyItems)
  : AssemblyItems -> AssemblyItems -> Prop :=
| EligibleSubstitution_end :
    EligibleSubstitution bodies [] []
| EligibleSubstitution_keep item rest out :
    EligibleSubstitution bodies rest out ->
    EligibleSubstitution bodies (item :: rest) (item :: out)
| EligibleSubstitution_inline item nextItem rest out body exitJump :
    type item = PushTag ->
    is_instruction nextItem JUMP = true ->
    getJumpType nextItem = IntoFunction ->
    bodies !! data item = Some body ->
    last body = Some exitJump ->
    getJumpType exitJump = OutOfFunction ->
    EligibleSubstitution bodies rest out ->
    EligibleSubstitution bodies (item :: nextItem :: rest)
      (update_back (setJumpType Ordinary) body ++ out).

(** [Rewriting this bodies0 blocks program output]: [output] is what the
    decisions of [shouldInline] make of [program], read from left to right
    with the counters [blocks].  An item at which [shouldInline] approves, a
    [PushTag] of a tag of the map followed by a [JUMP], is replaced together
    with the [JUMP] by the body of the block, which is its body in
    [bodies0], with the classification of the last item set to [Ordinary],
    and the counters are updated; every other item, a call site that
    [shouldInline] declines among them, is kept. *)
Inductive Rewriting (this : Inliner) (bodies0 : gmap u256 AssemblyItems)
  : gmap u256 InlinableBlock -> AssemblyItems -> AssemblyItems -> Prop :=
| Rewriting_end blocks :
    Rewriting this bodies0 blocks [] []
| Rewriting_keep blocks item rest out :
    (forall nextItem rest' inlined,
        rest = nextItem :: rest' ->
        type item = PushTag ->
        is_instruction nextItem JUMP = true ->
        blocks !! data item = Some inlined ->
        shouldInline this nextItem inlined = Ret None) ->
    Rewriting this bodies0 blocks rest out ->
    Rewriting this bodies0 blocks (item :: rest) (item :: out)
| Rewriting_inline blocks item nextItem rest out inlined :
    type item = PushTag ->
    is_instruction nextItem JUMP = true ->
    blocks !! data item = Some inlined ->
    bodies0 !! data item = Some (items inlined) ->
    shouldInline this nextItem inlined = Ret (Some Ordinary) ->
    Rewriting this bodies0
      (countInlinedPushTags (items inlined)
         (<[data item :=
              {| items := items inlined;
                 pushTagCount := wrap64 (pushTagCount inlined - 1) |}]> blocks))
      rest out ->
    Rewriting this bodies0 blocks (item :: nextItem :: rest)
      (update_back (setJumpType Ordinary) (items inlined) ++ out).

(** ** Ranges *)

Lemma last_Some_nonempty {A : Type} (l : list A) (x : A) :
  last l = Some x -> l <> [].
Proof. by destruct l. Qed.

Lemma last_nonempty {A : Type} (l : list A) :
  l <> [] -> exists x, last l = Some x.
Proof.
  intros Hl. destruct (last l) as [x|] eqn:E; [by exists x|].
  by apply last_None in E.
Qed.

Lemma drop_last_snoc {A : Type} (l : list A) (x : A) :
  drop_last (l ++ [x]) = l.
Proof.
  unfold drop_last. rewrite length_app. simpl.
  replace (length l + 1 - 1)%nat with (length l) by lia.
  by rewrite take_app_length.
Qed.

Lemma update_back_snoc {A : Type} (f : A -> A) (l : list A) (x : A) :
  update_back f (l ++ [x]) = l ++ [f x].
Proof. unfold update_back. by rewrite last_snoc, drop_last_snoc. Qed.

Lemma update_back_app {A : Type} (f : A -> A) (l k : list A) :
  k <> [] -> update_back f (l ++ k) = l ++ update_back f k.
Proof.
  intros Hk. destruct (exists_last Hk) as [k' [x ->]].
  by rewrite app_assoc, !update_back_snoc, app_assoc.
Qed.

(** ** The two assertions *)

(** C9. The candidacy check of an empty block, and the eligibility check of
    a call-site instruction or of a block terminator that is not a [JUMP],
    end in the [OptimizerException] of [assertThrow]: neither returns a
    boolean or a classification. *)
Theorem assertions_throw :
  (forall _tag, isInlineCandidate _tag [] = Fail OptimizerException) /\
  (forall this _jump _block exitJump,
      last (items _block) = Some exitJump ->
      is_instruction _jump JUMP = false \/ is_instruction exitJump JUMP = false ->
      shouldInline this _jump _block = Fail OptimizerException).
Proof.
  split; [done|].
  intros this _jump _block exitJump Hlast Hnot. unfold shouldInline.
  rewrite Hlast. by destruct Hnot as [-> | ->]; [|rewrite andb_false_r].
Qed.

(** ** The decision *)

(** On two [JUMP]s the eligibility check returns, and [Ordinary] is the
    one classification it returns. *)
Lemma shouldInline_returns this _jump _block exitJump :
  last (items _block) = Some exitJump ->
  is_instruction _jump JUMP = true ->
  is_instruction exitJump JUMP = true ->
  shouldInline this _jump _block = Ret (Some Ordinary) \/
  shouldInline this _jump _block = Ret None.
Proof.
  intros Hlast Hjump Hexit. unfold shouldInline. rewrite Hlast, Hjump, Hexit. simpl.
  destruct (_ && _); [|by right].
  destruct (shouldInlineFullFunctionBody _ _ _); [by left|by right].
Qed.

(** C6. For a call-site jump and a block whose terminator are both [JUMP]s,
    [shouldInline] returns the classification [Ordinary] exactly when the call
    site is classified [IntoFunction], the terminator [OutOfFunction] and
    [shouldInlineFullFunctionBody] approves; otherwise it returns nothing. *)
Theorem shouldInline_eligible this _jump _block exitJump :
  last (items _block) = Some exitJump ->
  is_instruction _jump JUMP = true ->
  is_instruction exitJump JUMP = true ->
  (shouldInline this _jump _block = Ret (Some Ordinary) <->
   getJumpType _jump = IntoFunction /\
   getJumpType exitJump = OutOfFunction /\
   shouldInlineFullFunctionBody this (items _block) (pushTagCount _block) = true) /\
  (shouldInline this _jump _block <> Ret (Some Ordinary) ->
   shouldInline this _jump _block = Ret None).
Proof.
  intros Hlast Hjump Hexit. unfold shouldInline. rewrite Hlast, Hjump, Hexit. simpl.
  destruct (decide (getJumpType _jump = IntoFunction)) as [Hin|Hin];
    [rewrite (bool_decide_eq_true_2 _ Hin)|rewrite (bool_decide_eq_false_2 _ Hin)];
    simpl; [|split; [split; [done|tauto]|done]].
  destruct (decide (getJumpType exitJump = OutOfFunction)) as [Hout|Hout];
    [rewrite (bool_decide_eq_true_2 _ Hout)|rewrite (bool_decide_eq_false_2 _ Hout)];
    simpl; [|split; [split; [done|tauto]|done]].
  destruct (shouldInlineFullFunctionBody _ _ _); split; try done.
  split; [done|]. by intros (_ & _ & ?).
Qed.

Lemma wrap256_nonneg x : 0 <= wrap256 x.
Proof. unfold wrap256. apply Z.mod_pos_bound. lia. Qed.

(** C8. With the block, the reference count and the costs fixed, a decision
    to inline stays a decision to inline when the number of expected runs
    grows. *)
Theorem shouldInlineFullFunctionBody_monotone this _block _pushTagCount runs runs' :
  runs <= runs' ->
  shouldInlineFullFunctionBody (withRuns this runs) _block _pushTagCount = true ->
  shouldInlineFullFunctionBody (withRuns this runs') _block _pushTagCount = true.
Proof.
  unfold shouldInlineFullFunctionBody, withRuns. simpl. intros Hle.
  set (cost := wrap256 _). rewrite !Z.gtb_lt.
  pose proof (wrap256_nonneg
    (_pushTagCount *
     wrap256 (executionCost uninlinedCallSitePattern (m_evmVersion this) +
              executionCost uninlinedFunctionPattern (m_evmVersion this)))) as Hcost.
  fold cost in Hcost. nia.
Qed.

Lemma exactCodeSize_nonneg (l : AssemblyItems) :
  (forall item, 0 <= bytesRequired item 2) -> 0 <= exactCodeSize l.
Proof.
  intros Hpos. induction l as [|i l IH]; simpl; [lia|]. specialize (Hpos i). lia.
Qed.

Lemma codeSize_from (l : AssemblyItems) (sum : Z) :
  (forall item, 0 <= bytesRequired item 2) ->
  0 <= sum -> sum + exactCodeSize l < 2 ^ 32 ->
  fold_left (fun sum _item => wrap32 (wrap64 (sum + bytesRequired _item 2))) l sum
  = sum + exactCodeSize l.
Proof.
  intros Hpos. revert sum. induction l as [|item l IH]; intros sum Hsum Hlt.
  - simpl. lia.
  - cbn [fold_left exactCodeSize fold_right] in *. fold (exactCodeSize l) in *.
    pose proof (exactCodeSize_nonneg l Hpos) as Hl.
    pose proof (Hpos item) as Hitem.
    assert (wrap32 (wrap64 (sum + bytesRequired item 2)) = sum + bytesRequired item 2) as ->.
    { unfold wrap32, wrap64. rewrite (Z.mod_small _ (2 ^ 64)) by lia.
      apply Z.mod_small. lia. }
    rewrite IH; lia.
Qed.

Lemma codeSize_exact (l : AssemblyItems) :
  (forall item, 0 <= bytesRequired item 2) ->
  exactCodeSize l < 2 ^ 32 ->
  codeSize l = exactCodeSize l.
Proof. intros Hpos Hlt. unfold codeSize. rewrite codeSize_from; [lia|done|lia|lia]. Qed.

(** C2, as amended.  When no intermediate value leaves the width it is
    computed in, [shouldInlineFullFunctionBody] returns [true] exactly when
    the rule on exact integers holds. *)
Theorem shouldInlineFullFunctionBody_exact this _block _pushTagCount :
  fitsFixedWidth this _block _pushTagCount ->
  shouldInlineFullFunctionBody this _block _pushTagCount = true <->
  exactInlineRule this _block _pushTagCount.
Proof.
  unfold fitsFixedWidth, exactInlineRule, shouldInlineFullFunctionBody.
  intros (Hpos & Hbody & Hcall & Hfun & Hcount & Hunin & Hin & Hcost & Hexec).
  rewrite !codeSize_exact by done.
  pose proof (exactCodeSize_nonneg (drop_last _block) Hpos) as Hb.
  pose proof (exactCodeSize_nonneg uninlinedCallSitePattern Hpos) as Hc.
  pose proof (exactCodeSize_nonneg uninlinedFunctionPattern Hpos) as Hf.
  set (body := exactCodeSize (drop_last _block)) in *.
  set (call := exactCodeSize uninlinedCallSitePattern) in *.
  set (func := exactCodeSize uninlinedFunctionPattern) in *.
  set (exec := executionCost uninlinedCallSitePattern (m_evmVersion this) +
               executionCost uninlinedFunctionPattern (m_evmVersion this)) in *.
  assert (0 <= _pushTagCount * call) as Hcc by nia.
  assert (0 <= _pushTagCount * body) as Hcb by nia.
  assert (wrap64 (_pushTagCount * call) = _pushTagCount * call) as ->
    by (apply Z.mod_small; lia).
  assert (wrap64 (_pushTagCount * call + func) = _pushTagCount * call + func) as ->
    by (apply Z.mod_small; lia).
  assert (wrap64 (_pushTagCount * call + func + body) = _pushTagCount * call + func + body)
    as -> by (apply Z.mod_small; lia).
  assert (wrap64 (_pushTagCount * body) = _pushTagCount * body) as ->
    by (apply Z.mod_small; lia).
  assert (wrap256 (_pushTagCount * wrap256 exec) = _pushTagCount * exec) as ->.
  { destruct (decide (_pushTagCount = 0)) as [->|Hne]; [done|].
    assert (exec < 2 ^ 256) by nia.
    assert (wrap256 exec = exec) as -> by (apply Z.mod_small; lia).
    apply Z.mod_small. nia. }
  rewrite Z.gtb_lt. lia.
Qed.

(** ** The block extractor *)

Lemma item_eq_PushTag (item : AssemblyItem) (L : u256) :
  item_eq item (AssemblyItem_of_type PushTag L) = isPushTagOf L item.
Proof.
  unfold item_eq, isPushTagOf. simpl.
  destruct (decide (type item = PushTag)) as [E|E].
  - rewrite (bool_decide_eq_true_2 _ E), E. by simpl.
  - by rewrite (bool_decide_eq_false_2 _ E).
Qed.

Lemma pushTagOccurrences_app L (l k : AssemblyItems) :
  pushTagOccurrences L (l ++ k) = (pushTagOccurrences L l + pushTagOccurrences L k)%nat.
Proof. induction l as [|x l IH]; simpl; [done|]. rewrite IH. lia. Qed.

Lemma pushTagOccurrences_le L (l : AssemblyItems) :
  (pushTagOccurrences L l <= length l)%nat.
Proof. induction l as [|x l IH]; simpl; [done|]. destruct (isPushTagOf L x); lia. Qed.

Lemma pushTagOccurrences_zero L (l : AssemblyItems) :
  pushTagOccurrences L l = 0%nat <-> existsb (isPushTagOf L) l = false.
Proof.
  induction l as [|x l IH]; simpl; [done|].
  destruct (isPushTagOf L x); simpl; [split; [lia|done]|done].
Qed.

(** What a positive answer of the candidacy check says. *)
Lemma isInlineCandidate_true (_tag : u256) (_items : AssemblyItems) :
  isInlineCandidate _tag _items = Ret true <->
  (exists back, last _items = Some back /\ is_instruction back JUMP = true) /\
  pushTagOccurrences _tag _items = 0%nat.
Proof.
  unfold isInlineCandidate.
  assert (existsb (fun item => item_eq item (AssemblyItem_of_type PushTag _tag)) _items
          = existsb (isPushTagOf _tag) _items) as ->.
  { induction _items as [|x l IH]; simpl; [done|]. by rewrite item_eq_PushTag, IH. }
  rewrite pushTagOccurrences_zero.
  destruct _items as [|x l]; [simpl; split; [done|by intros [[? [? ?]] _]]|].
  rewrite bool_decide_eq_true_2 by (simpl; lia).
  destruct (last (x :: l)) as [back|] eqn:Hlast; [|by apply last_None in Hlast].
  destruct (is_instruction back JUMP) eqn:Hback; simpl.
  - destruct (existsb (isPushTagOf _tag) (x :: l)) eqn:Hex; simpl in Hex; rewrite Hex.
    + split; [done|by intros [_ ?]].
    + split; [eauto|done].
  - split; [done|]. intros [[b [[= <-] Hb]] _]. congruence.
Qed.

(** The candidacy check of a block that is not empty returns. *)
Lemma isInlineCandidate_returns (_tag : u256) (_items : AssemblyItems) :
  _items <> [] -> exists candidate, isInlineCandidate _tag _items = Ret candidate.
Proof.
  intros Hne. unfold isInlineCandidate.
  destruct _items as [|x l]; [done|].
  rewrite bool_decide_eq_true_2 by (simpl; lia).
  destruct (last (x :: l)) as [back|] eqn:Hlast; [|by apply last_None in Hlast].
  destruct (negb _); [eauto|]. destruct (existsb _ _); eauto.
Qed.

Lemma slice_length {A : Type} (l : list A) (from to : nat) :
  (to <= length l)%nat -> length (slice from to l) = (to - from)%nat.
Proof. intros Hto. unfold slice. rewrite length_take, length_drop. lia. Qed.

Lemma slice_subseteq {A : Type} (l : list A) (from to : nat) : slice from to l ⊆ l.
Proof. unfold slice. etrans; [apply subseteq_take|apply subseteq_drop]. Qed.

Lemma scanInvariant_init (_items : AssemblyItems) :
  scanInvariant _items 0 {| inlinableBlockItems := ∅; numPushTags := ∅; lastTag := None |}.
Proof. split; simpl; done. Qed.

(** One iteration of the scan returns and keeps the invariant. *)
Lemma scanItem_invariant (_items : AssemblyItems) (index : nat) (item : AssemblyItem)
  (st : ScanState) :
  _items !! index = Some item ->
  scanInvariant _items index st ->
  exists st', scanItem _items index item st = Ret st' /\
              scanInvariant _items (S index) st'.
Proof.
  intros Hitem [Hblocks Htally Hlast]. unfold scanItem.
  pose proof (lookup_lt_Some _ _ _ Hitem) as Hindex.
  set (tally := if bool_decide (type item = PushTag) then _ else _).
  assert (forall L, tally !! L =
            if decide (pushTagOccurrences L (take (S index) _items) = 0%nat) then None
            else Some (wrap64 (Z.of_nat (pushTagOccurrences L (take (S index) _items)))))
    as Htally'.
  { intros L. rewrite (take_S_r _ _ _ Hitem), pushTagOccurrences_app. simpl.
    unfold tally, isPushTagOf.
    destruct (decide (type item = PushTag)) as [Ht|Ht];
      [rewrite !(bool_decide_eq_true_2 _ Ht)|rewrite !(bool_decide_eq_false_2 _ Ht)]; simpl.
    - destruct (decide (data item = L)) as [Hd|Hd];
        [rewrite (bool_decide_eq_true_2 _ Hd)|rewrite (bool_decide_eq_false_2 _ Hd)].
      + subst L. rewrite lookup_insert_eq, Htally.
        destruct (decide ((pushTagOccurrences (data item) (take index _items) + (1 + 0))%nat
                          = 0%nat)) as [E|_]; [lia|].
        destruct (decide (pushTagOccurrences (data item) (take index _items) = 0%nat))
          as [E|E]; simpl.
        * rewrite E. done.
        * f_equal. unfold wrap64. rewrite Zplus_mod_idemp_l. f_equal. lia.
      + rewrite lookup_insert_ne by done. rewrite Htally. simpl.
        by rewrite ?Nat.add_0_r.
    - rewrite Htally. simpl. by rewrite ?Nat.add_0_r. }
  clearbody tally.
  assert (forall blocks last',
    (forall L block, blocks !! L = Some block ->
       blockOf _items L block /\ isInlineCandidate L block = Ret true) ->
    (forall i, last' = Some i -> (i < index)%nat /\
       exists tagItem, _items !! i = Some tagItem /\ type tagItem = Tag) ->
    scanInvariant _items (S index)
      {| inlinableBlockItems := blocks; numPushTags := tally;
         lastTag := if bool_decide (type item = Tag) then Some index else last' |})
    as Hfinish.
  { intros blocks last' Hb Hl. split; simpl; [done|done|].
    intros i. destruct (decide (type item = Tag)) as [Ht|Ht];
      [rewrite (bool_decide_eq_true_2 _ Ht)|rewrite (bool_decide_eq_false_2 _ Ht)].
    - intros [= <-]. split; [lia|eauto].
    - intros Hi. destruct (Hl i Hi) as [? ?]. split; [lia|done]. }
  destruct (lastTag st) as [lastTagIndex|] eqn:HlastTag.
  - destruct (Hlast lastTagIndex eq_refl) as [Hlt [tagItem [HtagItem Htag]]].
    destruct (breaksCSEAnalysisBlock item false).
    + rewrite HtagItem. simpl.
      set (block := slice (lastTagIndex + 1) (index + 1) _items).
      assert (block <> []) as Hne.
      { intros E. apply (f_equal length) in E. unfold block in E.
        rewrite slice_length in E by lia. simpl in E. lia. }
      destruct (isInlineCandidate_returns (data tagItem) block Hne) as [candidate Hc].
      rewrite Hc. simpl. eexists; split; [done|]. apply Hfinish; [|done].
      destruct candidate; [|done].
      intros L b. destruct (decide (data tagItem = L)) as [<-|Hd].
      * rewrite lookup_insert_eq. intros [= <-]. split; [|done].
        exists lastTagIndex, index, tagItem. repeat split; done || lia.
      * rewrite lookup_insert_ne by done. apply Hblocks.
    + simpl. eexists; split; [done|]. apply Hfinish; [done|].
      intros i [= <-]. eauto.
  - simpl. eexists; split; [done|]. by apply Hfinish.
Qed.

(** The scan returns, with the invariant at the end of the program. *)
Lemma scanLoop_invariant (_items : AssemblyItems) (rest : AssemblyItems) (index : nat)
  (st : ScanState) :
  drop index _items = rest ->
  scanInvariant _items index st ->
  exists st', scanLoop _items index rest st = Ret st' /\
              scanInvariant _items (length _items) st'.
Proof.
  revert index st. induction rest as [|item rest IH]; intros index st Hdrop Hinv.
  - simpl. exists st. split; [done|].
    assert (length _items <= index)%nat as Hge.
    { apply (f_equal length) in Hdrop. rewrite length_drop in Hdrop. simpl in Hdrop.
      destruct (decide (length _items <= index)%nat); [done|].
      destruct (lookup_lt_is_Some_2 _items index) as [x Hx]; [lia|].
      pose proof (drop_S _ _ _ Hx) as E. apply (f_equal length) in E.
      rewrite length_drop in E. simpl in E. lia. }
    destruct Hinv as [Hb Ht Hl]. split; [done| |].
    + intros L. rewrite (Ht L). by rewrite !take_ge by lia.
    + intros i Hi. destruct (Hl i Hi) as [Hlt [tagItem [Htag ?]]].
      split; [|eauto]. by apply lookup_lt_Some in Htag.
  - assert (_items !! index = Some item) as Hitem.
    { pose proof (lookup_drop _items index 0) as E.
      by rewrite Hdrop, Nat.add_0_r in E. }
    destruct (scanItem_invariant _ _ _ _ Hitem Hinv) as [st' [Hstep Hinv']].
    simpl. rewrite Hstep. simpl. apply IH; [|done].
    by rewrite (drop_S _ _ _ Hitem) in Hdrop; injection Hdrop.
Qed.

(** [determineInlinableBlocks] returns, and an entry of its result is a
    block of the program that passed the candidacy check, with the tally of
    the [PushTag]s of its tag, which is not zero. *)
Lemma determineInlinableBlocks_returns (_items : AssemblyItems) :
  exists blocks,
    determineInlinableBlocks _items = Ret blocks /\
    forall L block, blocks !! L = Some block ->
      blockOf _items L (items block) /\
      isInlineCandidate L (items block) = Ret true /\
      pushTagOccurrences L _items <> 0%nat /\
      pushTagCount block = wrap64 (Z.of_nat (pushTagOccurrences L _items)).
Proof.
  unfold determineInlinableBlocks.
  destruct (scanLoop_invariant _items _items 0 _ eq_refl (scanInvariant_init _items))
    as [st [-> [Hblocks Htally _]]].
  simpl. eexists; split; [done|].
  intros L block. rewrite map_lookup_imap.
  destruct (inlinableBlockItems st !! L) as [body|] eqn:Hbody; [|done]. simpl.
  rewrite Htally, firstn_all.
  destruct (decide (pushTagOccurrences L _items = 0%nat)) as [E|E]; [done|].
  intros [= <-]. simpl. destruct (Hblocks L body Hbody). done.
Qed.

(** C3. Every block of the mapping that [determineInlinableBlocks] returns
    is not empty, ends in a [JUMP] and holds no [PushTag] of its own tag. *)
Theorem inlinableBlocks_are_candidates (_items : AssemblyItems) :
  exists blocks,
    determineInlinableBlocks _items = Ret blocks /\
    forall L block, blocks !! L = Some block ->
      items block <> [] /\
      (exists back, last (items block) = Some back /\ is_instruction back JUMP = true) /\
      Forall (fun item => isPushTagOf L item = false) (items block).
Proof.
  destruct (determineInlinableBlocks_returns _items) as [blocks [Hdet Hblocks]].
  exists blocks. split; [done|]. intros L block Hblock.
  destruct (Hblocks L block Hblock) as (_ & Hcand & _ & _).
  apply isInlineCandidate_true in Hcand as [[back [Hlast Hback]] Hself].
  split; [by eapply last_Some_nonempty|]. split; [eauto|].
  apply pushTagOccurrences_zero in Hself.
  apply Forall_forall. intros item Hin.
  destruct (isPushTagOf L item) eqn:E; [|done].
  assert (existsb (isPushTagOf L) (items block) = true); [|congruence].
  apply existsb_exists. exists item. by rewrite <- list_elem_of_In.
Qed.

(** C4. For a program of fewer than 2^64 items (every [std::vector] is one),
    the reference count of an entry of the mapping is the number of
    [PushTag]s of its tag in the whole program, and that number is at
    least one. *)
Theorem referenceCount_counts_PushTags (_items : AssemblyItems) :
  Z.of_nat (length _items) < 2 ^ 64 ->
  exists blocks,
    determineInlinableBlocks _items = Ret blocks /\
    forall L block, blocks !! L = Some block ->
      pushTagCount block = Z.of_nat (pushTagOccurrences L _items) /\
      (1 <= pushTagOccurrences L _items)%nat.
Proof.
  intros Hlen.
  destruct (determineInlinableBlocks_returns _items) as [blocks [Hdet Hblocks]].
  exists blocks. split; [done|]. intros L block Hblock.
  destruct (Hblocks L block Hblock) as (_ & _ & Hpos & ->).
  pose proof (pushTagOccurrences_le L _items).
  split; [|lia]. apply Z.mod_small. lia.
Qed.

(** A program without a [JUMP] has no inlinable block. *)
Lemma determineInlinableBlocks_no_JUMP (_items : AssemblyItems) :
  Forall (fun item => is_instruction item JUMP = false) _items ->
  determineInlinableBlocks _items = Ret ∅.
Proof.
  intros Hno.
  destruct (determineInlinableBlocks_returns _items) as [blocks [Hdet Hblocks]].
  rewrite Hdet. f_equal. apply map_empty. intros L.
  destruct (blocks !! L) as [block|] eqn:Hblock; [exfalso|done].
  destruct (Hblocks L block Hblock) as (Hof & Hcand & _ & _).
  apply isInlineCandidate_true in Hcand as [[back [Hlast Hback]] _].
  destruct Hof as (? & ? & ? & _ & _ & _ & _ & Hslice).
  assert (back ∈ _items) as Hin.
  { apply last_Some_elem_of in Hlast. rewrite Hslice in Hlast.
    by eapply slice_subseteq. }
  rewrite Forall_forall in Hno. specialize (Hno back Hin). congruence.
Qed.

(** C7. For a program without a [JUMP], [determineInlinableBlocks] returns
    the empty mapping and [optimise] returns the program as it is. *)
Theorem no_JUMP_unchanged (this : Inliner) (m_items : AssemblyItems) :
  Forall (fun item => is_instruction item JUMP = false) m_items ->
  determineInlinableBlocks m_items = Ret ∅ /\
  optimise this m_items = Ret m_items.
Proof.
  intros Hno. pose proof (determineInlinableBlocks_no_JUMP m_items Hno) as Hdet.
  split; [done|]. unfold optimise. rewrite Hdet. simpl.
  by rewrite bool_decide_eq_true_2.
Qed.

(** ** The rewriter *)

Lemma bodies_lookup (blocks : gmap u256 InlinableBlock) (L : u256) :
  bodies blocks !! L = items <$> blocks !! L.
Proof. unfold bodies. apply lookup_fmap. Qed.

Lemma bodies_insert (blocks : gmap u256 InlinableBlock) (L : u256)
  (block block' : InlinableBlock) :
  blocks !! L = Some block -> items block' = items block ->
  bodies (<[L := block']> blocks) = bodies blocks.
Proof.
  intros Hblock Hitems. apply map_eq. intros L'. rewrite !bodies_lookup.
  destruct (decide (L = L')) as [<-|Hne].
  - rewrite lookup_insert_eq, Hblock. simpl. by rewrite Hitems.
  - by rewrite lookup_insert_ne.
Qed.

(** Counting the [PushTag]s of an inlined body changes no body. *)
Lemma bodies_countInlinedPushTags (inlinedItems : AssemblyItems)
  (blocks : gmap u256 InlinableBlock) :
  bodies (countInlinedPushTags inlinedItems blocks) = bodies blocks.
Proof.
  unfold countInlinedPushTags. revert blocks.
  induction inlinedItems as [|x l IH]; intros blocks; simpl; [done|].
  rewrite IH. destruct (bool_decide (type x = PushTag)); [|done].
  destruct (blocks !! data x) as [block|] eqn:Hblock; [|done].
  by apply bodies_insert with block.
Qed.

(** The two ways an iteration of the loop goes: the item is emitted, or
    it starts a call site that is replaced by the body of its block. *)
Lemma loopIteration_cases (this : Inliner) (s : LoopState) (item : AssemblyItem)
  (rest : AssemblyItems) :
  endInJUMP (bodies (inlinableBlocks s)) ->
  it s = item :: rest ->
  loopIteration this s =
    Ret {| it := rest; newItems := newItems s ++ [item];
           inlinableBlocks := inlinableBlocks s |} \/
  exists nextItem rest' inlined,
    rest = nextItem :: rest' /\
    type item = PushTag /\
    is_instruction nextItem JUMP = true /\
    inlinableBlocks s !! data item = Some inlined /\
    shouldInline this nextItem inlined = Ret (Some Ordinary) /\
    loopIteration this s =
      Ret {| it := rest';
             newItems := newItems s ++ update_back (setJumpType Ordinary) (items inlined);
             inlinableBlocks :=
               countInlinedPushTags (items inlined)
                 (<[data item :=
                      {| items := items inlined;
                         pushTagCount := wrap64 (pushTagCount inlined - 1) |}]>
                    (inlinableBlocks s)) |}.
Proof.
  intros Hjump Hit. unfold loopIteration. rewrite Hit.
  destruct rest as [|nextItem rest']; [by left|].
  destruct (decide (type item = PushTag)) as [Ht|Ht];
    [rewrite (bool_decide_eq_true_2 _ Ht)|rewrite (bool_decide_eq_false_2 _ Ht); by left].
  destruct (is_instruction nextItem JUMP) eqn:Hnext; [|by left]. simpl.
  destruct (inlinableBlocks s !! data item) as [inlined|] eqn:Hinlined; [|by left].
  destruct (Hjump (data item) (items inlined)) as [back [Hlast Hback]].
  { by rewrite bodies_lookup, Hinlined. }
  assert (shouldInline this nextItem inlined = Ret (Some Ordinary) \/
          shouldInline this nextItem inlined = Ret None) as [Hyes|Hno].
  { by apply shouldInline_returns with back. }
  - right. exists nextItem, rest', inlined. rewrite Hyes. simpl.
    rewrite update_back_app by (by eapply last_Some_nonempty). done.
  - left. by rewrite Hno.
Qed.

(** The loop returns when it has an iteration for each item left, and its
    output is the output so far followed by a substitution of the items
    left. *)
Lemma forLoop_substitutes (this : Inliner) (fuel : nat) (s : LoopState) :
  (length (it s) <= fuel)%nat ->
  endInJUMP (bodies (inlinableBlocks s)) ->
  exists s' out,
    forLoop this fuel s = Ret s' /\
    it s' = [] /\
    bodies (inlinableBlocks s') = bodies (inlinableBlocks s) /\
    newItems s' = newItems s ++ out /\
    Substitution (bodies (inlinableBlocks s)) (it s) out.
Proof.
  revert s. induction fuel as [|fuel IH]; intros s Hfuel Hjump.
  - destruct s as [[|item rest] acc blocks]; simpl in *; [|lia].
    eexists _, []. rewrite app_nil_r. repeat split; constructor.
  - destruct (it s) as [|item rest] eqn:Hit.
    { destruct s as [? acc blocks]; simpl in *. subst.
      eexists _, []. rewrite app_nil_r. repeat split; constructor. }
    simpl. rewrite Hit.
    destruct (loopIteration_cases this s item rest Hjump Hit)
      as [Hstep | (nextItem & rest' & inlined & -> & Ht & Hnext & Hinlined & _ & Hstep)];
      rewrite Hstep; simpl.
    + edestruct (IH {| it := rest; newItems := newItems s ++ [item];
                       inlinableBlocks := inlinableBlocks s |})
        as (s' & out & Hrun & Hend & Hbodies & Hout & Hsub); simpl in *; [lia|done|].
      exists s', (item :: out). rewrite Hrun. repeat split; try done.
      * by rewrite Hout, <- app_assoc.
      * by constructor.
    + set (blocks' := countInlinedPushTags _ _).
      assert (bodies blocks' = bodies (inlinableBlocks s)) as Hsame.
      { unfold blocks'. rewrite bodies_countInlinedPushTags.
        by apply bodies_insert with inlined. }
      edestruct (IH {| it := rest';
                       newItems := newItems s ++
                         update_back (setJumpType Ordinary) (items inlined);
                       inlinableBlocks := blocks' |})
        as (s' & out & Hrun & Hend & Hbodies & Hout & Hsub); simpl in *;
        [lia|by rewrite Hsame|].
      exists s', (update_back (setJumpType Ordinary) (items inlined) ++ out).
      rewrite Hrun. repeat split; try done.
      * by rewrite Hbodies.
      * by rewrite Hout, <- app_assoc.
      * rewrite Hsame in Hsub. constructor; try done.
        by rewrite bodies_lookup, Hinlined.
Qed.

Lemma endInJUMP_determined (_items : AssemblyItems) (blocks : gmap u256 InlinableBlock) :
  determineInlinableBlocks _items = Ret blocks -> endInJUMP (bodies blocks).
Proof.
  intros Hdet L body. rewrite bodies_lookup.
  destruct (blocks !! L) as [block|] eqn:Hblock; [|done]. intros [= <-].
  destruct (determineInlinableBlocks_returns _items) as [blocks' [Hdet' Hblocks]].
  rewrite Hdet in Hdet'. injection Hdet' as <-.
  destruct (Hblocks L block Hblock) as (_ & Hcand & _).
  by apply isInlineCandidate_true in Hcand as [? _].
Qed.

(** An iteration of the loop follows the decision of [shouldInline]: the
    item is emitted, and then [shouldInline] declines it if it starts a call
    site at all, or [shouldInline] approves and the call site is replaced. *)
Lemma loopIteration_decides (this : Inliner) (s : LoopState) (item : AssemblyItem)
  (rest : AssemblyItems) :
  endInJUMP (bodies (inlinableBlocks s)) ->
  it s = item :: rest ->
  ((forall nextItem rest' inlined,
       rest = nextItem :: rest' ->
       type item = PushTag ->
       is_instruction nextItem JUMP = true ->
       inlinableBlocks s !! data item = Some inlined ->
       shouldInline this nextItem inlined = Ret None) /\
   loopIteration this s =
     Ret {| it := rest; newItems := newItems s ++ [item];
            inlinableBlocks := inlinableBlocks s |}) \/
  exists nextItem rest' inlined,
    rest = nextItem :: rest' /\
    type item = PushTag /\
    is_instruction nextItem JUMP = true /\
    inlinableBlocks s !! data item = Some inlined /\
    shouldInline this nextItem inlined = Ret (Some Ordinary) /\
    loopIteration this s =
      Ret {| it := rest';
             newItems := newItems s ++ update_back (setJumpType Ordinary) (items inlined);
             inlinableBlocks :=
               countInlinedPushTags (items inlined)
                 (<[data item :=
                      {| items := items inlined;
                         pushTagCount := wrap64 (pushTagCount inlined - 1) |}]>
                    (inlinableBlocks s)) |}.
Proof.
  intros Hjump Hit. unfold loopIteration. rewrite Hit.
  destruct rest as [|nextItem rest']; [left; split; [done|done]|].
  destruct (decide (type item = PushTag)) as [Ht|Ht];
    [rewrite (bool_decide_eq_true_2 _ Ht)
    |rewrite (bool_decide_eq_false_2 _ Ht); left; split; [done|done]].
  destruct (is_instruction nextItem JUMP) eqn:Hnext;
    [|left; split; [intros ? ? ? [= <- <-]; congruence|done]]. simpl.
  destruct (inlinableBlocks s !! data item) as [inlined|] eqn:Hinlined;
    [|left; split; [done|done]].
  destruct (Hjump (data item) (items inlined)) as [back [Hlast Hback]].
  { by rewrite bodies_lookup, Hinlined. }
  destruct (shouldInline_returns this nextItem inlined back Hlast Hnext Hback)
    as [Hyes|Hno].
  - right. exists nextItem, rest', inlined. rewrite Hyes. simpl.
    rewrite update_back_app by (by eapply last_Some_nonempty). done.
  - left. rewrite Hno. split; [|done].
    by intros ? ? ? [= <- <-] _ _ [= <-].
Qed.

(** The loop returns the output so far followed by the rewriting of the
    items left that the decisions lead to. *)
Lemma forLoop_rewrites (this : Inliner) (bodies0 : gmap u256 AssemblyItems)
  (fuel : nat) (s : LoopState) :
  (length (it s) <= fuel)%nat ->
  endInJUMP bodies0 ->
  bodies (inlinableBlocks s) = bodies0 ->
  exists s' out,
    forLoop this fuel s = Ret s' /\
    newItems s' = newItems s ++ out /\
    Rewriting this bodies0 (inlinableBlocks s) (it s) out.
Proof.
  revert s. induction fuel as [|fuel IH]; intros s Hfuel Hjump Hbodies.
  - destruct s as [[|item rest] acc blocks]; simpl in *; [|lia].
    eexists _, []. rewrite app_nil_r. repeat split; constructor.
  - destruct (it s) as [|item rest] eqn:Hit.
    { destruct s as [? acc blocks]; simpl in *. subst.
      eexists _, []. rewrite app_nil_r. repeat split; constructor. }
    simpl. rewrite Hit.
    destruct (loopIteration_decides this s item rest) as
      [[Hdeclined Hstep] |
       (nextItem & rest' & inlined & -> & Ht & Hnext & Hinlined & Hyes & Hstep)];
      [by rewrite Hbodies|done| |]; rewrite Hstep; simpl.
    + edestruct (IH {| it := rest; newItems := newItems s ++ [item];
                       inlinableBlocks := inlinableBlocks s |})
        as (s' & out & Hrun & Hout & Hsub); simpl in *; [lia|done|done|].
      exists s', (item :: out). rewrite Hrun. repeat split; try done.
      * by rewrite Hout, <- app_assoc.
      * by constructor.
    + set (blocks' := countInlinedPushTags _ _).
      assert (bodies blocks' = bodies0) as Hsame.
      { unfold blocks'. rewrite bodies_countInlinedPushTags.
        by rewrite (bodies_insert _ _ inlined). }
      edestruct (IH {| it := rest';
                       newItems := newItems s ++
                         update_back (setJumpType Ordinary) (items inlined);
                       inlinableBlocks := blocks' |})
        as (s' & out & Hrun & Hout & Hsub); simpl in *; [lia|done|done|].
      exists s', (update_back (setJumpType Ordinary) (items inlined) ++ out).
      rewrite Hrun. repeat split; try done.
      * by rewrite Hout, <- app_assoc.
      * constructor; try done.
        by rewrite <- Hbodies, bodies_lookup, Hinlined.
Qed.

(** The decisions leave one output. *)
Lemma Rewriting_functional (this : Inliner) (bodies0 : gmap u256 AssemblyItems)
  (blocks : gmap u256 InlinableBlock) (program out1 out2 : AssemblyItems) :
  Rewriting this bodies0 blocks program out1 ->
  Rewriting this bodies0 blocks program out2 ->
  out1 = out2.
Proof.
  intros H1. revert out2.
  induction H1 as [blocks
                  |blocks item rest out Hdeclined _ IH
                  |blocks item nextItem rest out inlined Ht Hnext Hinlined _ Hyes _ IH];
    intros out2 H2.
  - by inversion H2.
  - inversion H2 as [|? ? ? out' _ Hrest|? ? nextItem ? out' inlined Ht Hnext Hinlined _ Hyes];
      subst.
    + f_equal. by apply IH.
    + rewrite (Hdeclined nextItem _ inlined eq_refl Ht Hnext Hinlined) in Hyes. done.
  - inversion H2 as [|? ? ? out' Hdeclined Hrest
                     |? ? ? ? out' inlined' _ _ Hinlined' _ _ Hrest]; subst.
    + rewrite (Hdeclined nextItem rest inlined eq_refl Ht Hnext Hinlined) in Hyes. done.
    + rewrite Hinlined in Hinlined'. injection Hinlined' as <-.
      f_equal. by apply IH.
Qed.

(** C1. [optimise] returns, and its output is the rewriting of the program
    that the decisions of [shouldInline] lead to, whatever they are, and the
    only one: read from left to right, every call site that [shouldInline]
    approves, a [PushTag] followed by a [JUMP], is replaced by the items of
    the block of the tag pushed, the last of them with the classification
    [Ordinary], and every other item, a declined call site among them, stays
    in its place and order.  The block is a block of the program itself that
    ends in a [JUMP], so the output is a substitution of the program. *)
Theorem optimise_substitutes (this : Inliner) (m_items : AssemblyItems) :
  exists blocks output,
    determineInlinableBlocks m_items = Ret blocks /\
    optimise this m_items = Ret output /\
    Rewriting this (bodies blocks) blocks m_items output /\
    (forall output', Rewriting this (bodies blocks) blocks m_items output' ->
                     output' = output) /\
    Substitution (bodies blocks) m_items output /\
    endInJUMP (bodies blocks) /\
    forall L block, blocks !! L = Some block -> blockOf m_items L (items block).
Proof.
  destruct (determineInlinableBlocks_returns m_items) as [blocks [Hdet Hblocks]].
  assert (forall L block, blocks !! L = Some block -> blockOf m_items L (items block))
    as Hof by (intros L block Hb; by destruct (Hblocks L block Hb)).
  pose proof (endInJUMP_determined m_items blocks Hdet) as Hjump.
  assert (exists output,
            optimise this m_items = Ret output /\
            Rewriting this (bodies blocks) blocks m_items output /\
            Substitution (bodies blocks) m_items output) as (output & Hopt & Hre & Hsub).
  { unfold optimise. rewrite Hdet. simpl.
    destruct (decide (blocks = ∅)) as [E|E];
      [rewrite (bool_decide_eq_true_2 _ E)|rewrite (bool_decide_eq_false_2 _ E)].
    - exists m_items. split; [done|]. split.
      + subst blocks. clear. induction m_items as [|item rest IH]; constructor; [|done].
        intros ? ? ? _ _ _ Hnone. by rewrite lookup_empty in Hnone.
      + clear. induction m_items; by constructor.
    - destruct (forLoop_rewrites this (bodies blocks) (length m_items)
                  {| it := m_items; newItems := []; inlinableBlocks := blocks |})
        as (s' & out & Hrun & Hout & Hre); simpl in *; [lia|done|done|].
      destruct (forLoop_substitutes this (length m_items)
                  {| it := m_items; newItems := []; inlinableBlocks := blocks |})
        as (s'' & out' & Hrun' & _ & _ & Hout' & Hsub); simpl in *; [lia|done|].
      rewrite Hrun in Hrun'. injection Hrun' as <-.
      rewrite Hout in Hout'. simpl in Hout'. subst out'.
      exists out. rewrite Hrun. simpl. by rewrite Hout. }
  exists blocks, output. repeat split; try done.
  intros output' Hre'. by eapply Rewriting_functional.
Qed.

(** An approved call site is replaced: the iteration appends the body, with
    its last item reclassified, and moves past the two items. *)
Lemma loopIteration_inlines (this : Inliner) (s : LoopState)
  (item nextItem : AssemblyItem) (rest : AssemblyItems) (inlined : InlinableBlock)
  (jumpType : JumpType) :
  it s = item :: nextItem :: rest ->
  type item = PushTag ->
  is_instruction nextItem JUMP = true ->
  inlinableBlocks s !! data item = Some inlined ->
  shouldInline this nextItem inlined = Ret (Some jumpType) ->
  items inlined <> [] /\
  loopIteration this s =
    Ret {| it := rest;
           newItems := newItems s ++ update_back (setJumpType jumpType) (items inlined);
           inlinableBlocks :=
             countInlinedPushTags (items inlined)
               (<[data item :=
                    {| items := items inlined;
                       pushTagCount := wrap64 (pushTagCount inlined - 1) |}]>
                  (inlinableBlocks s)) |}.
Proof.
  intros Hit Ht Hnext Hinlined Hyes.
  assert (items inlined <> []) as Hne.
  { intros E. unfold shouldInline in Hyes. by rewrite E in Hyes. }
  split; [done|]. unfold loopIteration.
  rewrite Hit, (bool_decide_eq_true_2 _ Ht), Hnext, Hinlined, Hyes. simpl.
  by rewrite update_back_app.
Qed.

(** The output so far takes no part in what the loop does next. *)
Lemma loopIteration_frame (this : Inliner) (s : LoopState) :
  loopIteration this s =
  s' ← loopIteration this
         {| it := it s; newItems := []; inlinableBlocks := inlinableBlocks s |};
  Ret {| it := it s'; newItems := newItems s ++ newItems s';
         inlinableBlocks := inlinableBlocks s' |}.
Proof.
  unfold loopIteration. simpl.
  destruct (it s) as [|item [|nextItem rest]]; [done|done|].
  destruct (_ && _); [|done].
  destruct (inlinableBlocks s !! data item) as [inlined|]; [|done].
  destruct (shouldInline this nextItem inlined) as [[jumpType|]|] eqn:Hyes;
    simpl; [|done|done].
  assert (items inlined <> []) as Hne.
  { intros E. unfold shouldInline in Hyes. by rewrite E in Hyes. }
  by rewrite update_back_app.
Qed.

Lemma forLoop_frame (this : Inliner) (fuel : nat) (s : LoopState) :
  forLoop this fuel s =
  s' ← forLoop this fuel
         {| it := it s; newItems := []; inlinableBlocks := inlinableBlocks s |};
  Ret {| it := it s'; newItems := newItems s ++ newItems s';
         inlinableBlocks := inlinableBlocks s' |}.
Proof.
  revert s. induction fuel as [|fuel IH]; intros s.
  - destruct s as [[|? ?] ? ?]; simpl; [by rewrite app_nil_r|done].
  - destruct s as [[|item rest] acc blocks]; simpl; [by rewrite app_nil_r|].
    rewrite (loopIteration_frame this {| it := item :: rest; newItems := acc;
                                         inlinableBlocks := blocks |}). simpl.
    destruct (loopIteration this _) as [s1|]; simpl; [|done].
    rewrite (IH {| it := it s1; newItems := acc ++ newItems s1;
                   inlinableBlocks := inlinableBlocks s1 |}). simpl.
    rewrite (IH s1).
    destruct (forLoop this fuel _) as [s2|]; simpl; [|done].
    by rewrite app_assoc.
Qed.

(** C10. When a call site is inlined, the copy of the block goes to the
    output as it is, call sites in it included, and the loop goes on with
    the item after the call site in the program: what it does from there
    depends on the copy through the counters alone, the bodies of the blocks
    being what they were. *)
Theorem inlined_copy_not_revisited (this : Inliner) (s : LoopState)
  (item nextItem : AssemblyItem) (rest : AssemblyItems) (inlined : InlinableBlock)
  (jumpType : JumpType) :
  it s = item :: nextItem :: rest ->
  type item = PushTag ->
  is_instruction nextItem JUMP = true ->
  inlinableBlocks s !! data item = Some inlined ->
  shouldInline this nextItem inlined = Ret (Some jumpType) ->
  exists s1,
    loopIteration this s = Ret s1 /\
    it s1 = rest /\
    newItems s1 = newItems s ++ update_back (setJumpType jumpType) (items inlined) /\
    bodies (inlinableBlocks s1) = bodies (inlinableBlocks s) /\
    forall fuel,
      forLoop this (S fuel) s =
      s' ← forLoop this fuel
             {| it := rest; newItems := []; inlinableBlocks := inlinableBlocks s1 |};
      Ret {| it := it s';
             newItems := newItems s ++
                         update_back (setJumpType jumpType) (items inlined) ++
                         newItems s';
             inlinableBlocks := inlinableBlocks s' |}.
Proof.
  intros Hit Ht Hnext Hinlined Hyes.
  destruct (loopIteration_inlines this s item nextItem rest inlined jumpType
              Hit Ht Hnext Hinlined Hyes) as [Hne Hstep].
  eexists. split; [exact Hstep|]. simpl. repeat split.
  - rewrite bodies_countInlinedPushTags. by apply bodies_insert with inlined.
  - intros fuel. simpl. rewrite Hit, Hstep. simpl.
    rewrite forLoop_frame. simpl.
    destruct (forLoop this fuel _) as [s'|]; simpl; [|done].
    by rewrite app_assoc.
Qed.

(** ** The counters *)

Lemma InlinableBlock_eta (block : InlinableBlock) (count : Z) :
  count = pushTagCount block ->
  {| items := items block; pushTagCount := count |} = block.
Proof. intros ->. by destruct block. Qed.

(** While no counter leaves 64 bits, counting the [PushTag]s of an inlined
    body adds to each counter the number of [PushTag]s of its tag. *)
Lemma countInlinedPushTags_exact (inlinedItems : AssemblyItems)
  (blocks : gmap u256 InlinableBlock) :
  (forall L block, blocks !! L = Some block ->
     0 <= pushTagCount block /\
     pushTagCount block + Z.of_nat (pushTagOccurrences L inlinedItems) < 2 ^ 64) ->
  countInlinedPushTags inlinedItems blocks =
  map_imap
    (fun L block =>
       Some {| items := items block;
               pushTagCount :=
                 pushTagCount block + Z.of_nat (pushTagOccurrences L inlinedItems) |})
    blocks.
Proof.
  unfold countInlinedPushTags. revert blocks.
  induction inlinedItems as [|x l IH]; intros blocks Hfit.
  - simpl. apply map_eq. intros L. rewrite map_lookup_imap.
    destruct (blocks !! L) as [block|]; [|done]. simpl.
    f_equal. symmetry. apply InlinableBlock_eta. lia.
  - cbn [fold_left].
    destruct (decide (type x = PushTag)) as [Ht|Ht];
      [rewrite (bool_decide_eq_true_2 _ Ht)|rewrite (bool_decide_eq_false_2 _ Ht)].
    + destruct (blocks !! data x) as [block|] eqn:Hblock.
      * destruct (Hfit _ _ Hblock) as [Hpos Hlt]. cbn [pushTagOccurrences] in Hlt.
        assert (isPushTagOf (data x) x = true) as Hx.
        { unfold isPushTagOf. by rewrite !bool_decide_eq_true_2. }
        rewrite Hx in Hlt.
        assert (wrap64 (pushTagCount block + 1) = pushTagCount block + 1) as ->
          by (apply Z.mod_small; lia).
        rewrite IH.
        -- apply map_eq. intros L. rewrite !map_lookup_imap.
           destruct (decide (data x = L)) as [<-|Hne].
           ++ rewrite lookup_insert_eq, Hblock. simpl. rewrite Hx. do 2 f_equal. lia.
           ++ rewrite lookup_insert_ne by done.
              destruct (blocks !! L) as [b|]; [|done]. simpl.
              unfold isPushTagOf. rewrite (bool_decide_eq_false_2 (data x = L)) by done.
              by rewrite andb_false_r.
        -- intros L b. destruct (decide (data x = L)) as [<-|Hne].
           ++ rewrite lookup_insert_eq. intros [= <-]. simpl. lia.
           ++ rewrite lookup_insert_ne by done. intros Hb.
              destruct (Hfit _ _ Hb) as [? Hlt']. cbn [pushTagOccurrences] in Hlt'.
              unfold isPushTagOf in Hlt'.
              rewrite (bool_decide_eq_false_2 (data x = L)), andb_false_r in Hlt' by done.
              simpl in Hlt'. lia.
      * rewrite IH.
        -- apply map_eq. intros L. rewrite !map_lookup_imap.
           destruct (blocks !! L) as [b|] eqn:Hb; [|done]. simpl.
           assert (isPushTagOf L x = false) as ->; [|done].
           unfold isPushTagOf. destruct (decide (data x = L)) as [<-|Hne]; [congruence|].
           by rewrite (bool_decide_eq_false_2 (data x = L)), andb_false_r.
        -- intros L b Hb. destruct (Hfit _ _ Hb) as [? Hlt']. split; [done|].
           cbn [pushTagOccurrences] in Hlt'. lia.
    + rewrite IH.
      * apply map_eq. intros L. rewrite !map_lookup_imap.
        destruct (blocks !! L) as [b|]; [|done]. simpl.
        unfold isPushTagOf. by rewrite (bool_decide_eq_false_2 _ Ht).
      * intros L b Hb. destruct (Hfit _ _ Hb) as [? Hlt']. split; [done|].
        cbn [pushTagOccurrences] in Hlt'. lia.
Qed.

(** While no counter leaves 64 bits, inlining a call site changes the
    counters as [recount] says. *)
Lemma inlining_recounts (tag : u256) (inlined : InlinableBlock)
  (blocks : gmap u256 InlinableBlock) :
  blocks !! tag = Some inlined ->
  1 <= pushTagCount inlined ->
  (forall L block, blocks !! L = Some block ->
     0 <= pushTagCount block /\
     pushTagCount block + Z.of_nat (pushTagOccurrences L (items inlined)) < 2 ^ 64) ->
  countInlinedPushTags (items inlined)
    (<[tag := {| items := items inlined;
                 pushTagCount := wrap64 (pushTagCount inlined - 1) |}]> blocks)
  = recount tag (items inlined) blocks.
Proof.
  intros Hinlined Hone Hfit. destruct (Hfit _ _ Hinlined) as [_ Hlt].
  assert (wrap64 (pushTagCount inlined - 1) = pushTagCount inlined - 1) as ->
    by (apply Z.mod_small; lia).
  rewrite countInlinedPushTags_exact.
  - unfold recount. apply map_eq. intros L. rewrite !map_lookup_imap.
    destruct (decide (L = tag)) as [->|Hne].
    + by rewrite lookup_insert_eq, Hinlined.
    + rewrite lookup_insert_ne by done.
      destruct (blocks !! L) as [b|]; [|done]. simpl. do 2 f_equal. lia.
  - intros L b. destruct (decide (tag = L)) as [<-|Hne].
    + rewrite lookup_insert_eq. intros [= <-]. simpl. lia.
    + rewrite lookup_insert_ne by done. apply Hfit.
Qed.

Lemma is_instruction_not_PushTag (L : u256) (item : AssemblyItem) (i : Instruction) :
  is_instruction item i = true -> isPushTagOf L item = false.
Proof.
  unfold is_instruction, isPushTagOf. intros Hi.
  apply andb_true_iff in Hi as [Hop _]. apply bool_decide_eq_true_1 in Hop.
  rewrite (bool_decide_eq_false_2 (type item = PushTag)); [done|congruence].
Qed.

(** An iteration of the loop on a program of fewer than 2^32 items returns,
    keeps the invariant, and either leaves the counters alone or recounts
    them for the call site it inlined, whose counter was not zero. *)
Lemma loopIteration_invariant (this : Inliner) (n : nat) (s : LoopState)
  (item : AssemblyItem) (rest : AssemblyItems) :
  Z.of_nat n < 2 ^ 32 ->
  loopInvariant n s ->
  it s = item :: rest ->
  exists s',
    loopIteration this s = Ret s' /\
    loopInvariant n s' /\
    ((it s' = rest /\ inlinableBlocks s' = inlinableBlocks s) \/
     exists nextItem inlined,
       rest = nextItem :: it s' /\
       type item = PushTag /\
       is_instruction nextItem JUMP = true /\
       inlinableBlocks s !! data item = Some inlined /\
       1 <= pushTagCount inlined /\
       inlinableBlocks s' = recount (data item) (items inlined) (inlinableBlocks s)).
Proof.
  intros Hn [Hpos Hjump Hcounts] Hit.
  destruct (loopIteration_cases this s item rest Hjump Hit)
    as [Hstep | (nextItem & rest' & inlined & -> & Ht & Hnext & Hinlined & _ & Hstep)].
  - eexists. split; [exact Hstep|]. split; [|left; done].
    rewrite Hit in *. simpl in *. split; simpl; [lia|done|].
    intros L block Hblock. destruct (Hcounts L block Hblock) as (Hlen & Hlow & Hhigh).
    split; [done|]. split; [lia|].
    assert (Z.of_nat (n - S (length rest)) <= Z.of_nat (n - length rest)) by lia.
    nia.
  - rewrite Hit in *. cbn [length] in *.
    assert (forall L, pushTagOccurrences L (item :: nextItem :: rest') =
              ((if decide (L = data item) then 1 else 0) + pushTagOccurrences L rest')%nat)
      as Hocc.
    { intros L. simpl. rewrite (is_instruction_not_PushTag L nextItem JUMP Hnext).
      unfold isPushTagOf. rewrite (bool_decide_eq_true_2 _ Ht). simpl.
      destruct (decide (L = data item)) as [->|Hne].
      - by rewrite bool_decide_eq_true_2.
      - rewrite bool_decide_eq_false_2; [done|congruence]. }
    assert (forall L block, inlinableBlocks s !! L = Some block ->
              0 <= pushTagCount block /\
              pushTagCount block + Z.of_nat (length (items inlined)) <=
                Z.of_nat n * (1 + Z.of_nat (n - length rest'))) as Hroom.
    { intros L block Hblock. destruct (Hcounts L block Hblock) as (_ & Hlow & Hhigh).
      destruct (Hcounts _ _ Hinlined) as (Hlen & _ & _).
      split; [lia|].
      assert (Z.of_nat (n - length rest') = Z.of_nat (n - S (S (length rest'))) + 2)
        as -> by lia.
      nia. }
    assert (Z.of_nat n * (1 + Z.of_nat (n - length rest')) < 2 ^ 64) as Hmax.
    { assert (Z.of_nat (n - length rest') <= Z.of_nat n) by lia.
      assert (0 <= Z.of_nat (n - length rest')) by lia.
      assert (Z.of_nat n * (1 + Z.of_nat (n - length rest')) <= (2 ^ 32 - 1) * 2 ^ 32)
        by nia.
      assert ((2 ^ 32 - 1) * 2 ^ 32 < 2 ^ 64) by done.
      lia. }
    destruct (Hcounts _ _ Hinlined) as (_ & Hone & _).
    rewrite Hocc in Hone. destruct (decide (data item = data item)) as [_|]; [|done].
    assert (countInlinedPushTags (items inlined)
              (<[data item :=
                   {| items := items inlined;
                      pushTagCount := wrap64 (pushTagCount inlined - 1) |}]>
                 (inlinableBlocks s))
            = recount (data item) (items inlined) (inlinableBlocks s)) as Hrecount.
    { apply inlining_recounts; [done|lia|].
      intros L block Hblock. destruct (Hroom L block Hblock) as [? ?].
      pose proof (pushTagOccurrences_le L (items inlined)). split; [done|lia]. }
    eexists. split; [exact Hstep|]. split.
    + split; simpl; [lia| |].
      * rewrite bodies_countInlinedPushTags.
        by rewrite (bodies_insert _ _ inlined).
      * rewrite Hrecount. unfold recount. intros L block'. rewrite map_lookup_imap.
        destruct (inlinableBlocks s !! L) as [block|] eqn:Hblock; [|done]. simpl.
        intros [= <-]. simpl.
        destruct (Hcounts L block Hblock) as (Hlen & Hlow & _).
        destruct (Hroom L block Hblock) as [? ?].
        pose proof (pushTagOccurrences_le L (items inlined)).
        rewrite Hocc in Hlow.
        split; [done|]. destruct (decide (L = data item)); lia.
    + right. exists nextItem, inlined. simpl. repeat split; try done. lia.
Qed.

(** The invariant holds in every state of the loop. *)
Lemma visits_invariant (this : Inliner) (n : nat) (s0 s : LoopState) :
  Z.of_nat n < 2 ^ 32 ->
  loopInvariant n s0 ->
  visits this s0 s ->
  loopInvariant n s.
Proof.
  intros Hn H0 Hvisits. induction Hvisits as [|s s' _ IH Hmore Hstep]; [done|].
  destruct (it s) as [|item rest] eqn:Hit; [done|].
  destruct (loopIteration_invariant this n s item rest Hn IH Hit) as (s1 & Hs1 & Hinv & _).
  rewrite Hstep in Hs1. by injection Hs1 as <-.
Qed.

(** The invariant holds when the loop starts. *)
Lemma loopInvariant_initial (m_items : AssemblyItems) (blocks : gmap u256 InlinableBlock) :
  Z.of_nat (length m_items) < 2 ^ 64 ->
  determineInlinableBlocks m_items = Ret blocks ->
  loopInvariant (length m_items)
    {| it := m_items; newItems := []; inlinableBlocks := blocks |}.
Proof.
  intros Hn Hdet. split; simpl; [done|by eapply endInJUMP_determined|].
  intros L block Hblock.
  destruct (determineInlinableBlocks_returns m_items) as [blocks' [Hdet' Hblocks]].
  rewrite Hdet in Hdet'. injection Hdet' as <-.
  destruct (Hblocks L block Hblock) as (Hof & _ & _ & Hcount).
  pose proof (pushTagOccurrences_le L m_items).
  rewrite Hcount. unfold wrap64. rewrite Z.mod_small by lia.
  split; [|lia].
  destruct Hof as (lastTagIndex & index & ? & ? & _ & _ & _ & ->).
  rewrite slice_length by lia. lia.
Qed.


(** ** Further properties of the cost functions *)

Lemma wrap32_wrap64 (x : Z) : wrap32 (wrap64 x) = wrap32 x.
Proof.
  unfold wrap32, wrap64. apply Z.mod_mod_divide. exists (2 ^ 32). done.
Qed.

Lemma codeSize_fold (l : AssemblyItems) (sum : Z) :
  fold_left (fun sum _item => wrap32 (wrap64 (sum + bytesRequired _item 2))) l
    (wrap32 sum)
  = wrap32 (sum + exactCodeSize l).
Proof.
  revert sum. induction l as [|item l IH]; intros sum.
  - simpl. by rewrite Z.add_0_r.
  - cbn [fold_left exactCodeSize fold_right]. fold (exactCodeSize l).
    rewrite wrap32_wrap64.
    assert (wrap32 (wrap32 sum + bytesRequired item 2)
            = wrap32 (sum + bytesRequired item 2)) as ->.
    { unfold wrap32. by rewrite Zplus_mod_idemp_l. }
    rewrite IH. f_equal. lia.
Qed.

Lemma codeSize_wrap32 (l : AssemblyItems) : codeSize l = wrap32 (exactCodeSize l).
Proof.
  unfold codeSize. change 0 with (wrap32 0) at 1. by rewrite codeSize_fold.
Qed.

Lemma codeSize_range (l : AssemblyItems) : 0 <= codeSize l < 2 ^ 32.
Proof. rewrite codeSize_wrap32. unfold wrap32. apply Z.mod_pos_bound. done. Qed.

(** X1. Whatever the lengths of the items, [codeSize] is the sum of the
    encoded lengths taken modulo 2^32, the width of the accumulator [0u],
    and so the size of two ranges put together is the sum of their sizes
    modulo 2^32. *)
Theorem codeSize_modulo (l k : AssemblyItems) :
  codeSize l = exactCodeSize l mod 2 ^ 32 /\
  codeSize (l ++ k) = (codeSize l + codeSize k) mod 2 ^ 32.
Proof.
  split; [apply codeSize_wrap32|].
  rewrite !codeSize_wrap32. unfold wrap32.
  assert (exactCodeSize (l ++ k) = exactCodeSize l + exactCodeSize k) as ->.
  { unfold exactCodeSize. induction l as [|x l IH]; simpl; [done|]. rewrite IH. lia. }
  by rewrite <- Zplus_mod.
Qed.

(** X2. A block with one call site is inlined whenever the deposit cost
    grows strictly with the size, the two patterns take at least one byte
    and the number of runs is not negative: the body is deposited once
    either way, and the call and the return are saved. *)
Theorem single_call_site_inlined (this : Inliner) (_block : AssemblyItems) :
  0 <= m_runs this ->
  (forall x y, 0 <= x < y -> y < 2 ^ 64 ->
     dataGas x (m_isCreation this) (m_evmVersion this) <
     dataGas y (m_isCreation this) (m_evmVersion this)) ->
  0 < codeSize uninlinedCallSitePattern + codeSize uninlinedFunctionPattern ->
  shouldInlineFullFunctionBody this _block 1 = true.
Proof.
  intros Hruns Hmono Hpatterns. unfold shouldInlineFullFunctionBody.
  pose proof (codeSize_range (drop_last _block)) as Hbody.
  pose proof (codeSize_range uninlinedCallSitePattern) as Hcall.
  pose proof (codeSize_range uninlinedFunctionPattern) as Hfun.
  set (body := codeSize (drop_last _block)) in *.
  set (call := codeSize uninlinedCallSitePattern) in *.
  set (func := codeSize uninlinedFunctionPattern) in *.
  rewrite !Z.mul_1_l.
  assert (2 ^ 32 * 4 < 2 ^ 64) as Hroom by done.
  assert (wrap64 call = call) as -> by (apply Z.mod_small; lia).
  assert (wrap64 (call + func) = call + func) as -> by (apply Z.mod_small; lia).
  assert (wrap64 (call + func + body) = call + func + body) as ->
    by (apply Z.mod_small; lia).
  assert (wrap64 body = body) as -> by (apply Z.mod_small; lia).
  rewrite Z.gtb_lt.
  pose proof (wrap256_nonneg
    (wrap256 (executionCost uninlinedCallSitePattern (m_evmVersion this) +
              executionCost uninlinedFunctionPattern (m_evmVersion this)))) as Hcost.
  specialize (Hmono body (call + func + body)).
  nia.
Qed.

Lemma executionCost_fold (l : AssemblyItems) (sum : GasConsumption) (gasMeter : GasMeter) :
  fst (fold_left
         (fun '(sum, gasMeter) _item =>
            let '(gas, gasMeter') := estimateMax gasMeter _item false in
            (GasConsumption_add sum gas, gasMeter'))
         l (sum, gasMeter))
  = fold_left GasConsumption_add (estimates gasMeter l) sum.
Proof.
  revert sum gasMeter. induction l as [|item l IH]; intros sum gasMeter; [done|].
  cbn [fold_left estimates]. destruct (estimateMax gasMeter item false) as [gas gasMeter'].
  by rewrite IH.
Qed.

Lemma GasConsumption_add_infinite (gs : list GasConsumption) (sum : GasConsumption) :
  isInfinite sum = true ->
  isInfinite (fold_left GasConsumption_add gs sum) = true.
Proof.
  revert sum. induction gs as [|g gs IH]; intros sum Hsum; [done|].
  simpl. apply IH. unfold GasConsumption_add. by rewrite Hsum.
Qed.

Lemma totalGas_nonneg (gs : list GasConsumption) :
  Forall (fun gas => 0 <= value gas) gs -> 0 <= totalGas gs.
Proof. induction 1 as [|g gs Hg _ IH]; simpl; lia. Qed.

Lemma GasConsumption_add_finite (gs : list GasConsumption) (a : Z) :
  Forall (fun gas => 0 <= value gas) gs ->
  a <= u256_max ->
  let sum := fold_left GasConsumption_add gs {| value := a; isInfinite := false |} in
  isInfinite sum = existsb isInfinite gs || (u256_max <? a + totalGas gs) /\
  (isInfinite sum = false -> value sum = a + totalGas gs).
Proof.
  intros Hpos. revert a. induction Hpos as [|g gs Hg Hgs IH]; intros a Ha.
  - simpl. rewrite Z.add_0_r. split; [|done].
    symmetry. apply Z.ltb_ge. done.
  - pose proof (totalGas_nonneg gs Hgs) as Htotal.
    cbn [fold_left existsb totalGas fold_right]. fold (totalGas gs).
    destruct (isInfinite g) eqn:Hinf; cbn [orb].
    + assert (GasConsumption_add {| value := a; isInfinite := false |} g
              = GasConsumption_infinite) as ->.
      { unfold GasConsumption_add. simpl. by rewrite Hinf. }
      rewrite (GasConsumption_add_infinite gs GasConsumption_infinite eq_refl).
      split; [done|discriminate].
    + destruct (decide (u256_max < a + value g)) as [Hover|Hfit].
      * assert (GasConsumption_add {| value := a; isInfinite := false |} g
                = GasConsumption_infinite) as ->.
        { unfold GasConsumption_add. simpl.
          by rewrite Hinf, (bool_decide_eq_true_2 _ Hover). }
        rewrite (GasConsumption_add_infinite gs GasConsumption_infinite eq_refl).
        split; [|discriminate]. symmetry. apply orb_true_iff. right.
        apply Z.ltb_lt. lia.
      * assert (GasConsumption_add {| value := a; isInfinite := false |} g
                = {| value := a + value g; isInfinite := false |}) as ->.
        { unfold GasConsumption_add. simpl.
          by rewrite Hinf, (bool_decide_eq_false_2 _ Hfit). }
        destruct (IH (a + value g)) as [Hflag Hvalue]; [lia|].
        rewrite Z.add_assoc. split; [done|]. intros Hno. by apply Hvalue.
Qed.

(** X3. When the estimates of the items are not negative, [executionCost]
    is their sum, or the largest [u256] when an estimate is unbounded or the
    sum is beyond it. *)
Theorem executionCost_saturates (l : AssemblyItems) (_evmVersion : EVMVersion) :
  Forall (fun gas => 0 <= value gas) (estimates (newGasMeter _evmVersion) l) ->
  executionCost l _evmVersion =
  if existsb isInfinite (estimates (newGasMeter _evmVersion) l) then u256_max
  else Z.min (totalGas (estimates (newGasMeter _evmVersion) l)) u256_max.
Proof.
  intros Hpos. unfold executionCost. rewrite executionCost_fold.
  destruct (GasConsumption_add_finite _ 0 Hpos) as [Hflag Hvalue]; [done|].
  fold GasConsumption_zero in Hflag, Hvalue. rewrite Hflag.
  rewrite Z.add_0_l in *.
  set (gs := estimates (newGasMeter _evmVersion) l) in *.
  destruct (existsb isInfinite gs); [done|]. cbn [orb] in *.
  destruct (u256_max <? totalGas gs) eqn:Hover.
  - apply Z.ltb_lt in Hover. lia.
  - apply Z.ltb_ge in Hover. rewrite Hvalue by done. lia.
Qed.

(** ** Further properties of the rewriter *)

Lemma shouldInline_IntoFunction (this : Inliner) (_jump : AssemblyItem)
  (_block : InlinableBlock) (jumpType : JumpType) :
  shouldInline this _jump _block = Ret (Some jumpType) ->
  getJumpType _jump = IntoFunction /\
  exists exitJump, last (items _block) = Some exitJump /\
                   getJumpType exitJump = OutOfFunction.
Proof.
  unfold shouldInline. destruct (last (items _block)) as [exitJump|]; [|done].
  destruct (_ && _); [|done].
  destruct (bool_decide (getJumpType _jump = IntoFunction)) eqn:Hinto; [|done].
  destruct (bool_decide (getJumpType exitJump = OutOfFunction)) eqn:Hout; [|done].
  intros _. apply bool_decide_eq_true_1 in Hinto, Hout. eauto.
Qed.

Lemma forLoop_keeps (this : Inliner) (fuel : nat) (s : LoopState) :
  (length (it s) <= fuel)%nat ->
  endInJUMP (bodies (inlinableBlocks s)) ->
  noCallIntoFunction (it s) ->
  forLoop this fuel s =
  Ret {| it := []; newItems := newItems s ++ it s;
         inlinableBlocks := inlinableBlocks s |}.
Proof.
  revert s. induction fuel as [|fuel IH]; intros [l acc blocks] Hfuel Hjump Hno;
    simpl in *.
  - destruct l; simpl in *; [by rewrite app_nil_r|lia].
  - destruct l as [|item rest]; [by rewrite app_nil_r|].
    destruct (loopIteration_cases this {| it := item :: rest; newItems := acc;
                                          inlinableBlocks := blocks |} item rest Hjump eq_refl)
      as [Hstep | (nextItem & rest' & inlined & -> & Ht & Hnext & _ & Hyes & _)].
    + rewrite Hstep. simpl. rewrite IH; simpl in *; [|lia|done|tauto].
      by rewrite <- app_assoc.
    + apply shouldInline_IntoFunction in Hyes as [Hinto _].
      destruct Hno as [Hhead _]. tauto.
Qed.

(** X4. A program in which no [PushTag] is followed by a [JUMP] classified
    [IntoFunction] comes out of [optimise] as it went in, whatever blocks it
    has and whatever they cost. *)
Theorem optimise_without_calls (this : Inliner) (m_items : AssemblyItems) :
  noCallIntoFunction m_items ->
  optimise this m_items = Ret m_items.
Proof.
  intros Hno. unfold optimise.
  destruct (determineInlinableBlocks_returns m_items) as [blocks [Hdet _]].
  rewrite Hdet. simpl. destruct (bool_decide (blocks = ∅)); [done|].
  rewrite forLoop_keeps; simpl; [done|lia|by eapply endInJUMP_determined|done].
Qed.

(** ** Further properties of the block extractor *)

Lemma slice_lookup {A : Type} (l : list A) (from to j : nat) :
  (j < to - from)%nat -> slice from to l !! j = l !! (from + j)%nat.
Proof. intros Hj. unfold slice. by rewrite lookup_take_lt, lookup_drop. Qed.

Lemma slice_lookup_Some {A : Type} (l : list A) (from to j : nat) (x : A) :
  (to <= length l)%nat ->
  slice from to l !! j = Some x ->
  (j < to - from)%nat /\ l !! (from + j)%nat = Some x.
Proof.
  intros Hto Hx. pose proof (lookup_lt_Some _ _ _ Hx) as Hj.
  rewrite slice_length in Hj by done. split; [done|].
  by rewrite <- (slice_lookup l from to j).
Qed.

(** Induction over the scan of [determineInlinableBlocks]: what holds
    before the first item and is kept by each iteration holds at the end. *)
Lemma scanLoop_induction (_items : AssemblyItems) (P : nat -> ScanState -> Prop) :
  P 0%nat {| inlinableBlockItems := ∅; numPushTags := ∅; lastTag := None |} ->
  (forall index item st st',
      _items !! index = Some item ->
      scanInvariant _items index st ->
      P index st ->
      scanItem _items index item st = Ret st' ->
      P (S index) st') ->
  exists st',
    scanLoop _items 0 _items
      {| inlinableBlockItems := ∅; numPushTags := ∅; lastTag := None |} = Ret st' /\
    scanInvariant _items (length _items) st' /\
    P (length _items) st'.
Proof.
  intros Hinit Hstep.
  assert (forall rest index st,
            drop index _items = rest -> (index <= length _items)%nat ->
            scanInvariant _items index st -> P index st ->
            exists st', scanLoop _items index rest st = Ret st' /\
                        scanInvariant _items (length _items) st' /\
                        P (length _items) st') as Hloop.
  { induction rest as [|item rest IH]; intros index st Hdrop Hle Hinv HP.
    - assert (index = length _items) as ->.
      { apply (f_equal length) in Hdrop. rewrite length_drop in Hdrop.
        simpl in Hdrop. lia. }
      simpl. eauto.
    - assert (_items !! index = Some item) as Hitem.
      { pose proof (lookup_drop _items index 0) as E.
        by rewrite Hdrop, Nat.add_0_r in E. }
      destruct (scanItem_invariant _ _ _ _ Hitem Hinv) as [st1 [Hst1 Hinv1]].
      simpl. rewrite Hst1. simpl. apply IH; [| |done|by eapply Hstep].
      + by rewrite (drop_S _ _ _ Hitem) in Hdrop; injection Hdrop.
      + apply lookup_lt_Some in Hitem. lia. }
  apply Hloop; [done|lia|apply scanInvariant_init|done].
Qed.

(** What an iteration of the scan does to the open tag and to the blocks,
    read off [scanItem]. *)
Lemma scanItem_cases (_items : AssemblyItems) (index : nat) (item : AssemblyItem)
  (st st' : ScanState) :
  scanItem _items index item st = Ret st' ->
  (exists lastTag',
      lastTag st' = (if bool_decide (type item = Tag) then Some index else lastTag') /\
      ((lastTag' = lastTag st /\ inlinableBlockItems st' = inlinableBlockItems st /\
        (lastTag st = None \/ breaksCSEAnalysisBlock item false = false)) \/
       (exists lastTagIndex tagItem candidate,
           lastTag' = None /\
           lastTag st = Some lastTagIndex /\
           breaksCSEAnalysisBlock item false = true /\
           _items !! lastTagIndex = Some tagItem /\
           isInlineCandidate (data tagItem)
             (slice (lastTagIndex + 1) (index + 1) _items) = Ret candidate /\
           inlinableBlockItems st' =
             if candidate : bool
             then <[data tagItem := slice (lastTagIndex + 1) (index + 1) _items]>
                    (inlinableBlockItems st)
             else inlinableBlockItems st))).
Proof.
  unfold scanItem. destruct (lastTag st) as [lastTagIndex|] eqn:Hlast.
  - destruct (breaksCSEAnalysisBlock item false) eqn:Hbreaks.
    + destruct (_items !! lastTagIndex) as [tagItem|] eqn:Htag; [|done]. simpl.
      destruct (isInlineCandidate _ _) as [candidate|] eqn:Hcand; [|done]. simpl.
      intros [= <-]. simpl. eexists. split; [done|]. right.
      exists lastTagIndex, tagItem, candidate. done.
    + simpl. intros [= <-]. simpl. eexists. split; [done|]. left. eauto.
  - simpl. intros [= <-]. simpl. eexists. split; [done|]. left. eauto.
Qed.

Lemma last_slice {A : Type} (l : list A) (from index : nat) :
  (from <= index < length l)%nat ->
  last (slice from (index + 1) l) = l !! index.
Proof.
  intros Hrange. rewrite last_lookup, slice_length by lia.
  rewrite slice_lookup by lia. f_equal. lia.
Qed.

(** The scan keeps the blocks it records straight-line, and the items after
    the open tag free of [Tag]s and of ends of block. *)
Lemma scan_straightLine (_items : AssemblyItems) :
  exists st',
    scanLoop _items 0 _items
      {| inlinableBlockItems := ∅; numPushTags := ∅; lastTag := None |} = Ret st' /\
    forall L block, inlinableBlockItems st' !! L = Some block -> straightLine block.
Proof.
  destruct (scanLoop_induction _items
    (fun index st =>
       (forall L block, inlinableBlockItems st !! L = Some block -> straightLine block) /\
       (forall lastTagIndex, lastTag st = Some lastTagIndex ->
          forall j item, (lastTagIndex < j < index)%nat -> _items !! j = Some item ->
            type item <> Tag /\ breaksCSEAnalysisBlock item false = false)))
    as (st' & Hrun & _ & Hblocks & _).
  - split; [intros L block; simpl; by rewrite lookup_empty|done].
  - intros index item st st' Hitem Hinv [Hblocks Hopen] Hstep.
    pose proof (lookup_lt_Some _ _ _ Hitem) as Hindex.
    destruct (scanItem_cases _ _ _ _ _ Hstep) as (lastTag' & Hlast' & Hcases).
    unfold AssemblyItems in *.
    assert (forall lastTagIndex, lastTag' = Some lastTagIndex ->
              type item <> Tag ->
              forall j x, (lastTagIndex < j < S index)%nat -> _items !! j = Some x ->
                type x <> Tag /\ breaksCSEAnalysisBlock x false = false) as Hopen'.
    { intros k Hk Hnot j x Hj Hx.
      destruct Hcases as [(-> & _ & Hor) | (? & ? & ? & -> & _)]; [|done].
      destruct Hor as [Hnone | Hno]; [congruence|].
      destruct (decide (j = index)) as [->|Hne].
      - rewrite Hitem in Hx. injection Hx as <-. done.
      - apply (Hopen k Hk j x); [lia|done]. }
    split.
    + destruct Hcases as [(_ & -> & _) | (k0 & tagItem & candidate & _ & Hlt & Hbreaks &
                                          Htag & Hcand & ->)]; [done|].
      destruct candidate; [|done].
      intros L block. destruct (decide (data tagItem = L)) as [<-|Hne];
        [rewrite lookup_insert_eq|rewrite lookup_insert_ne by done; apply Hblocks].
      intros [= <-].
      destruct (scan_lastTag _ _ _ Hinv k0 Hlt) as [Hlti _].
      apply isInlineCandidate_true in Hcand as [[back [Hback HJUMP]] _].
      rewrite last_slice in Hback by lia.
      pose proof (eq_trans (eq_sym Hback) Hitem) as [= ->]. clear Hback.
      intros j x Hx. apply slice_lookup_Some in Hx as [Hj Hx]; [|lia].
      rewrite slice_length by lia.
      destruct (decide ((k0 + 1 + j)%nat = index)) as [E|E].
      * rewrite E, Hitem in Hx. injection Hx as <-. split.
        -- unfold is_instruction in HJUMP. apply andb_true_iff in HJUMP as [Hop _].
           apply bool_decide_eq_true_1 in Hop. congruence.
        -- split; [lia|done].
      * destruct (Hopen k0 Hlt (k0 + 1 + j)%nat x) as [Hnot Hno]; [lia|done|].
        split; [done|]. rewrite Hno. split; [done|lia].
    + intros k. rewrite Hlast'.
      destruct (decide (type item = Tag)) as [Ht|Ht];
        [rewrite (bool_decide_eq_true_2 _ Ht)|rewrite (bool_decide_eq_false_2 _ Ht)].
      * intros [= <-] j x Hj. lia.
      * intros Hk. by apply Hopen'.
  - eauto.
Qed.

(** The result of [determineInlinableBlocks] holds bodies that the scan
    recorded. *)
Lemma determineInlinableBlocks_bodies (_items : AssemblyItems) (st : ScanState)
  (blocks : gmap u256 InlinableBlock) :
  scanLoop _items 0 _items
    {| inlinableBlockItems := ∅; numPushTags := ∅; lastTag := None |} = Ret st ->
  determineInlinableBlocks _items = Ret blocks ->
  forall L block, blocks !! L = Some block ->
    inlinableBlockItems st !! L = Some (items block).
Proof.
  intros Hrun. unfold determineInlinableBlocks. rewrite Hrun. simpl.
  intros [= <-] L block. rewrite map_lookup_imap.
  destruct (inlinableBlockItems st !! L) as [body|]; [|done]. simpl.
  destruct (numPushTags st !! L); [|done]. by intros [= <-].
Qed.

(** X5. Every block that [determineInlinableBlocks] returns is
    straight-line code: no item of it is a [Tag], and
    [breaksCSEAnalysisBlock] holds of its last item and of no other. *)
Theorem inlinableBlocks_straightLine (_items : AssemblyItems) :
  exists blocks,
    determineInlinableBlocks _items = Ret blocks /\
    forall L block, blocks !! L = Some block -> straightLine (items block).
Proof.
  destruct (determineInlinableBlocks_returns _items) as [blocks [Hdet _]].
  destruct (scan_straightLine _items) as (st & Hrun & Hstraight).
  exists blocks. split; [done|]. intros L block Hblock.
  apply (Hstraight L). by eapply determineInlinableBlocks_bodies.
Qed.

(** [optimise] returns, with a substitution of the program by the bodies
    of the blocks found. *)
Lemma optimise_run (this : Inliner) (m_items : AssemblyItems) :
  exists blocks output,
    determineInlinableBlocks m_items = Ret blocks /\
    optimise this m_items = Ret output /\
    Substitution (bodies blocks) m_items output.
Proof.
  destruct (determineInlinableBlocks_returns m_items) as [blocks [Hdet _]].
  unfold optimise. rewrite Hdet. simpl.
  destruct (bool_decide (blocks = ∅)).
  - exists blocks, m_items. repeat split; try done.
    clear. induction m_items; by constructor.
  - destruct (forLoop_substitutes this (length m_items)
                {| it := m_items; newItems := []; inlinableBlocks := blocks |})
      as (s' & out & Hrun & _ & _ & Hout & Hsub); simpl in *;
      [lia|by eapply endInJUMP_determined|].
    exists blocks, out. rewrite Hrun. simpl. rewrite Hout. done.
Qed.

Lemma tagItems_none (l : AssemblyItems) :
  Forall (fun item => type item <> Tag) l -> tagItems l = [].
Proof.
  unfold tagItems. induction 1 as [|x l Hx _ IH]; [done|].
  by rewrite filter_cons_False.
Qed.

Lemma update_back_setJumpType_type (jumpType : JumpType) (l : AssemblyItems)
  (P : AssemblyItemType -> Prop) :
  Forall (fun item => P (type item)) l ->
  Forall (fun item => P (type item)) (update_back (setJumpType jumpType) l).
Proof.
  intros Hl. unfold update_back.
  destruct (last l) as [x|] eqn:Hlast; [|done].
  apply last_Some in Hlast as [l' ->]. rewrite drop_last_snoc.
  apply Forall_app in Hl as [Hl' Hx]. apply Forall_app. split; [done|].
  apply Forall_singleton. rewrite Forall_singleton in Hx. exact Hx.
Qed.

(** X6. [optimise] neither removes nor copies a [Tag]: the [Tag] items of
    its output are those of the program, in the same order. *)
Theorem optimise_keeps_Tags (this : Inliner) (m_items : AssemblyItems) :
  exists output,
    optimise this m_items = Ret output /\
    tagItems output = tagItems m_items.
Proof.
  destruct (optimise_run this m_items) as (blocks & output & Hdet & Hopt & Hsub).
  exists output. split; [done|].
  assert (forall L body, bodies blocks !! L = Some body ->
            Forall (fun item => type item <> Tag) body) as Hbodies.
  { intros L body. rewrite bodies_lookup.
    destruct (blocks !! L) as [block|] eqn:Hblock; [|done]. intros [= <-].
    destruct (scan_straightLine m_items) as (st & Hrun & Hstraight).
    pose proof (determineInlinableBlocks_bodies _ _ _ Hrun Hdet L block Hblock) as Hbody.
    apply Forall_forall. intros item Hin.
    apply list_elem_of_lookup in Hin as [j Hj].
    by destruct (Hstraight L _ Hbody j item Hj). }
  clear Hdet Hopt. unfold tagItems in *.
  induction Hsub as [|item rest out _ IH|item nextItem rest out body Ht Hnext Hbody _ IH].
  - done.
  - rewrite !filter_cons, IH. done.
  - rewrite filter_app, IH.
    rewrite (filter_cons_False _ item) by congruence.
    rewrite (filter_cons_False _ nextItem).
    2:{ unfold is_instruction in Hnext. apply andb_true_iff in Hnext as [Hop _].
        apply bool_decide_eq_true_1 in Hop. congruence. }
    fold (tagItems (update_back (setJumpType Ordinary) body)).
    rewrite tagItems_none; [done|].
    apply (update_back_setJumpType_type Ordinary body (fun t => t <> Tag)).
    by eapply Hbodies.
Qed.

Lemma pushTagOccurrences_update_back (L : u256) (jumpType : JumpType) (l : AssemblyItems) :
  pushTagOccurrences L (update_back (setJumpType jumpType) l) = pushTagOccurrences L l.
Proof.
  unfold update_back. destruct (last l) as [x|] eqn:Hlast; [|done].
  apply last_Some in Hlast as [l' ->].
  by rewrite drop_last_snoc, !pushTagOccurrences_app.
Qed.

Lemma pushTagOccurrences_call_site (L : u256) (item nextItem : AssemblyItem)
  (rest : AssemblyItems) :
  type item = PushTag ->
  is_instruction nextItem JUMP = true ->
  pushTagOccurrences L (item :: nextItem :: rest) =
  ((if decide (L = data item) then 1 else 0) + pushTagOccurrences L rest)%nat.
Proof.
  intros Ht Hnext. simpl. rewrite (is_instruction_not_PushTag L nextItem JUMP Hnext).
  unfold isPushTagOf. rewrite (bool_decide_eq_true_2 _ Ht). simpl.
  destruct (decide (L = data item)) as [->|Hne].
  - by rewrite bool_decide_eq_true_2.
  - rewrite bool_decide_eq_false_2; [done|congruence].
Qed.

(** An iteration of the loop keeps the counters exact. *)
Lemma loopIteration_countsExact (this : Inliner) (n : nat) (s s' : LoopState) :
  Z.of_nat n < 2 ^ 32 ->
  loopInvariant n s ->
  countsExact s ->
  it s <> [] ->
  loopIteration this s = Ret s' ->
  countsExact s'.
Proof.
  intros Hn Hinv Hexact Hmore Hstep.
  destruct (it s) as [|item rest] eqn:Hit; [done|].
  destruct (loopIteration_cases this s item rest (loop_bodies _ _ Hinv) Hit)
    as [Hkeep | (nextItem & rest' & inlined & -> & Ht & Hnext & Hinlined & _ & Hinline)].
  - rewrite Hkeep in Hstep. injection Hstep as <-.
    intros L block Hblock. simpl in *.
    rewrite (Hexact L block Hblock), Hit. by rewrite <- app_assoc.
  - destruct (loopIteration_invariant this n s item _ Hn Hinv Hit)
      as (s1 & Hs1 & _ & Hcases).
    rewrite Hstep in Hs1. injection Hs1 as <-.
    rewrite Hinline in Hstep. injection Hstep as <-. simpl in *.
    destruct Hcases as [[Hrest _] | (nextItem0 & inlined0 & _ & _ & _ & Hinlined0 & _ & Hre)].
    { apply (f_equal length) in Hrest. simpl in Hrest. lia. }
    rewrite Hinlined in Hinlined0. injection Hinlined0 as <-.
    intros L block'. simpl. rewrite Hre. unfold recount. rewrite map_lookup_imap.
    destruct (inlinableBlocks s !! L) as [block|] eqn:Hblock; [|done]. simpl.
    intros [= <-]. simpl.
    rewrite (Hexact L block Hblock), Hit.
    rewrite !pushTagOccurrences_app, pushTagOccurrences_update_back.
    rewrite (pushTagOccurrences_call_site L item nextItem rest' Ht Hnext).
    destruct (decide (L = data item)); lia.
Qed.

(** X7. On a program of fewer than 2^32 items the counters stay exact all
    through the loop of [optimise]: in every state, the counter of a block
    is the number of [PushTag]s of its tag in the output so far followed by
    the items yet to be read; when the loop ends, that is their number in
    the output. *)
Theorem pushTagCount_exact (this : Inliner) (m_items : AssemblyItems)
  (blocks : gmap u256 InlinableBlock) (s : LoopState) :
  Z.of_nat (length m_items) < 2 ^ 32 ->
  determineInlinableBlocks m_items = Ret blocks ->
  visits this {| it := m_items; newItems := []; inlinableBlocks := blocks |} s ->
  forall L block, inlinableBlocks s !! L = Some block ->
    pushTagCount block = Z.of_nat (pushTagOccurrences L (newItems s ++ it s)).
Proof.
  intros Hn Hdet Hvisits.
  assert (loopInvariant (length m_items)
            {| it := m_items; newItems := []; inlinableBlocks := blocks |}) as Hinit
    by (apply loopInvariant_initial; [lia|done]).
  change (countsExact s).
  induction Hvisits as [|s s' Hvisits IH Hmore Hstep].
  - intros L block Hblock. simpl in *.
    destruct (determineInlinableBlocks_returns m_items) as [blocks' [Hdet' Hblocks]].
    rewrite Hdet in Hdet'. injection Hdet' as <-.
    destruct (Hblocks L block Hblock) as (_ & _ & _ & ->).
    pose proof (pushTagOccurrences_le L m_items).
    apply Z.mod_small. lia.
  - eapply loopIteration_countsExact; [exact Hn| |exact IH|done|done].
    by eapply visits_invariant.
Qed.

(** X8. The converse of the candidacy of the blocks returned.  A [Tag]
    followed by items that neither are [Tag]s nor end a block, and then by
    a [JUMP] that ends one, is returned as the block of its tag, with the
    number of [PushTag]s of the tag as its counter, when the range holds no
    [PushTag] of the tag, the tag is pushed somewhere in the program and no
    later [Tag] bears it. *)
Theorem function_is_found (_items : AssemblyItems) (lastTagIndex index : nat)
  (tagItem back : AssemblyItem) :
  Z.of_nat (length _items) < 2 ^ 64 ->
  _items !! lastTagIndex = Some tagItem ->
  type tagItem = Tag ->
  (lastTagIndex < index)%nat ->
  (forall j item, (lastTagIndex < j < index)%nat -> _items !! j = Some item ->
     type item <> Tag /\ breaksCSEAnalysisBlock item false = false) ->
  _items !! index = Some back ->
  is_instruction back JUMP = true ->
  breaksCSEAnalysisBlock back false = true ->
  pushTagOccurrences (data tagItem) (slice (lastTagIndex + 1) (index + 1) _items) = 0%nat ->
  (forall j item, (index < j)%nat -> _items !! j = Some item ->
     type item = Tag -> data item <> data tagItem) ->
  pushTagOccurrences (data tagItem) _items <> 0%nat ->
  exists blocks,
    determineInlinableBlocks _items = Ret blocks /\
    blocks !! data tagItem =
    Some {| items := slice (lastTagIndex + 1) (index + 1) _items;
            pushTagCount := Z.of_nat (pushTagOccurrences (data tagItem) _items) |}.
Proof.
  intros Hlen HtagItem Htag Hlt Hbody Hback HJUMP Hbreaks Hself Hlater Hpushed.
  pose proof (lookup_lt_Some _ _ _ Hback) as Hindex.
  set (L := data tagItem) in *.
  set (block := slice (lastTagIndex + 1) (index + 1) _items) in *.
  assert (isInlineCandidate L block = Ret true) as Hcandidate.
  { apply isInlineCandidate_true. split; [|done]. exists back. split; [|done].
    unfold block. rewrite last_slice by lia. done. }
  assert (type back <> Tag) as HbackType.
  { unfold is_instruction in HJUMP. apply andb_true_iff in HJUMP as [Hop _].
    apply bool_decide_eq_true_1 in Hop. congruence. }
  destruct (scanLoop_induction _items
    (fun i st =>
       ((lastTagIndex < i <= index)%nat -> lastTag st = Some lastTagIndex) /\
       ((index < i)%nat ->
        inlinableBlockItems st !! L = Some block /\
        forall k, lastTag st = Some k -> (index < k)%nat)))
    as (st & Hrun & Hinv & _ & Hfound).
  - split; lia.
  - intros i x st st' Hx Hinv [Hopen Hclosed] Hstep.
    destruct (scanItem_cases _ _ _ _ _ Hstep) as (lastTag' & Hlast' & Hcases).
    unfold AssemblyItems in *. rewrite Hlast'. split.
    + intros Hi. destruct (decide (i = lastTagIndex)) as [->|Hne].
      * rewrite HtagItem in Hx. injection Hx as <-.
        by rewrite bool_decide_eq_true_2.
      * destruct (Hbody i x) as [Hnot Hno]; [lia|done|].
        rewrite (bool_decide_eq_false_2 _ Hnot).
        destruct Hcases as [(-> & _) | (? & ? & ? & _ & _ & Hyes & _)];
          [apply Hopen; lia|congruence].
    + intros Hi. destruct (decide (i = index)) as [->|Hne].
      * rewrite Hback in Hx. injection Hx as <-.
        rewrite (bool_decide_eq_false_2 _ HbackType).
        specialize (Hopen ltac:(lia)).
        destruct Hcases as [(_ & _ & [Hnone | Hno]) |
                            (k & tagItem0 & candidate & -> & Hk & _ & Htag0 & Hcand & ->)];
          [congruence|congruence|].
        rewrite Hopen in Hk. injection Hk as <-.
        rewrite HtagItem in Htag0. injection Htag0 as <-.
        fold L block in Hcand. rewrite Hcandidate in Hcand. injection Hcand as <-.
        fold L block. by rewrite lookup_insert_eq.
      * destruct (Hclosed ltac:(lia)) as [Hblock Hafter].
        destruct Hcases as [(-> & -> & _) |
                            (k & tagItem0 & candidate & -> & Hk & _ & Htag0 & _ & ->)].
        -- split; [done|]. intros k. destruct (bool_decide (type x = Tag)).
           ++ intros [= <-]. lia.
           ++ apply Hafter.
        -- split.
           ++ destruct candidate; [|done].
              rewrite lookup_insert_ne; [done|].
              destruct (scan_lastTag _ _ _ Hinv k Hk) as [_ [t [Ht HtTag]]].
              pose proof (eq_trans (eq_sym Ht) Htag0) as [= ->].
              apply (Hlater k tagItem0); [by apply Hafter|done|done].
           ++ intros k'. destruct (bool_decide (type x = Tag)); [|done].
              intros [= <-]. lia.
  - destruct (Hfound ltac:(lia)) as [Hblock _].
    unfold determineInlinableBlocks. rewrite Hrun. simpl.
    eexists. split; [done|].
    rewrite map_lookup_imap. unfold AssemblyItems in *. rewrite Hblock. simpl.
    rewrite (scan_tally _ _ _ Hinv L), firstn_all.
    destruct (decide (pushTagOccurrences L _items = 0%nat)) as [E|_]; [done|].
    do 2 f_equal. pose proof (pushTagOccurrences_le L _items).
    apply Z.mod_small. lia.
Qed.

Lemma forLoop_eligible (this : Inliner) (fuel : nat) (s : LoopState) :
  (length (it s) <= fuel)%nat ->
  endInJUMP (bodies (inlinableBlocks s)) ->
  exists s' out,
    forLoop this fuel s = Ret s' /\
    newItems s' = newItems s ++ out /\
    EligibleSubstitution (bodies (inlinableBlocks s)) (it s) out.
Proof.
  revert s. induction fuel as [|fuel IH]; intros s Hfuel Hjump.
  - destruct s as [[|item rest] acc blocks]; simpl in *; [|lia].
    eexists _, []. rewrite app_nil_r. repeat split; constructor.
  - destruct (it s) as [|item rest] eqn:Hit.
    { destruct s as [? acc blocks]; simpl in *. subst.
      eexists _, []. rewrite app_nil_r. repeat split; constructor. }
    simpl. rewrite Hit.
    destruct (loopIteration_cases this s item rest Hjump Hit)
      as [Hstep | (nextItem & rest' & inlined & -> & Ht & Hnext & Hinlined & Hyes & Hstep)];
      rewrite Hstep; simpl.
    + edestruct (IH {| it := rest; newItems := newItems s ++ [item];
                       inlinableBlocks := inlinableBlocks s |})
        as (s' & out & Hrun & Hout & Hsub); simpl in *; [lia|done|].
      exists s', (item :: out). rewrite Hrun. repeat split; try done.
      * by rewrite Hout, <- app_assoc.
      * by constructor.
    + set (blocks' := countInlinedPushTags _ _).
      assert (bodies blocks' = bodies (inlinableBlocks s)) as Hsame.
      { unfold blocks'. rewrite bodies_countInlinedPushTags.
        by apply bodies_insert with inlined. }
      edestruct (IH {| it := rest';
                       newItems := newItems s ++
                         update_back (setJumpType Ordinary) (items inlined);
                       inlinableBlocks := blocks' |})
        as (s' & out & Hrun & Hout & Hsub); simpl in *;
        [lia|by rewrite Hsame|].
      exists s', (update_back (setJumpType Ordinary) (items inlined) ++ out).
      rewrite Hrun. repeat split; try done.
      * by rewrite Hout, <- app_assoc.
      * rewrite Hsame in Hsub.
        apply shouldInline_IntoFunction in Hyes as (Hinto & exitJump & Hlast & Hout').
        econstructor; try done. by rewrite bodies_lookup, Hinlined.
Qed.

(** X9. Every call site that [optimise] replaces has a [JUMP] classified
    [IntoFunction], and the block that replaces it ended in a jump
    classified [OutOfFunction]: the output is a substitution of the program
    at eligible call sites alone. *)
Theorem optimise_inlines_calls_only (this : Inliner) (m_items : AssemblyItems) :
  exists blocks output,
    determineInlinableBlocks m_items = Ret blocks /\
    optimise this m_items = Ret output /\
    EligibleSubstitution (bodies blocks) m_items output.
Proof.
  destruct (determineInlinableBlocks_returns m_items) as [blocks [Hdet _]].
  unfold optimise. rewrite Hdet. simpl.
  destruct (bool_decide (blocks = ∅)).
  - exists blocks, m_items. repeat split; try done.
    clear. induction m_items; by constructor.
  - destruct (forLoop_eligible this (length m_items)
                {| it := m_items; newItems := []; inlinableBlocks := blocks |})
      as (s' & out & Hrun & Hout & Hsub); simpl in *;
      [lia|by eapply endInJUMP_determined|].
    exists blocks, out. rewrite Hrun. simpl. rewrite Hout. done.
Qed.


(** ** The counters beyond 64 bits *)





End Inliner.

(** ** Runs on concrete programs *)

(** Scenario A: the call site is replaced by the body of the block, the
    jump at its end reclassified. *)
Example scenarioA_inlined :
  @optimise EVM.collaborators (EVM.inliner 200) EVM.scenarioA =
  Ret [EVM.tag 1; EVM.op ADD; EVM.jump OutOfFunction;
       EVM.op ADD; EVM.jump Ordinary]%N.
Proof. vm_compute. reflexivity. Qed.

(** Scenario B: a block that pushes its own tag is not inlinable, and the
    program stays as it is. *)
Example scenarioB_unchanged :
  @determineInlinableBlocks EVM.collaborators EVM.scenarioB = Ret ∅ /\
  @optimise EVM.collaborators (EVM.inliner 200) EVM.scenarioB = Ret EVM.scenarioB.
Proof. split; vm_compute; reflexivity. Qed.

(** Scenarios C and D: fifty call sites of a block of 499 bytes that runs
    once, and one call site of a block of one byte that runs a thousand
    times. *)
Example scenarioC_declined :
  @shouldInlineFullFunctionBody EVM.collaborators (EVM.inliner 1)
    (replicate 499 (EVM.op ADD) ++ [EVM.jump OutOfFunction]) 50 = false.
Proof. vm_compute. reflexivity. Qed.

Example scenarioD_approved :
  @shouldInlineFullFunctionBody EVM.collaborators (EVM.inliner 1000)
    [EVM.op ADD; EVM.jump OutOfFunction] 1 = true.
Proof. vm_compute. reflexivity. Qed.

(** The whole run on [callFirst]: the copy of the first block keeps the
    call site at its end, which a pass over the output would find. *)
Example callFirst_optimised :
  @optimise EVM.collaborators (EVM.inliner 200) EVM.callFirst =
  Ret [EVM.op ADD; EVM.pushTag 2; EVM.jump Ordinary;
       EVM.tag 1; EVM.op ADD; EVM.pushTag 2; EVM.jump OutOfFunction;
       EVM.tag 2; EVM.op ADD; EVM.jump OutOfFunction]%N.
Proof. vm_compute. reflexivity. Qed.

Lemma assertions_throw_witness :
  @isInlineCandidate 7%N [] = Fail OptimizerException /\
  @shouldInline EVM.collaborators (EVM.inliner 200) (EVM.op ADD)
    {| items := [EVM.op ADD; EVM.jump OutOfFunction]; pushTagCount := 1 |}
  = Fail OptimizerException.
Proof.
  split.
  - apply (proj1 (@assertions_throw EVM.collaborators)).
  - apply (proj2 (@assertions_throw EVM.collaborators)) with (exitJump := EVM.jump OutOfFunction);
      [reflexivity | left; reflexivity].
Defined.

Lemma shouldInline_eligible_witness :
  @shouldInline EVM.collaborators (EVM.inliner 200) (EVM.jump IntoFunction)
    {| items := [EVM.op ADD; EVM.jump OutOfFunction]; pushTagCount := 1 |}
  = Ret (Some Ordinary).
Proof.
  apply (@shouldInline_eligible EVM.collaborators (EVM.inliner 200)
           (EVM.jump IntoFunction)
           {| items := [EVM.op ADD; EVM.jump OutOfFunction]; pushTagCount := 1 |}
           (EVM.jump OutOfFunction)); reflexivity || (repeat split; reflexivity).
Defined.

Lemma shouldInlineFullFunctionBody_monotone_witness :
  @shouldInlineFullFunctionBody EVM.collaborators (withRuns (EVM.inliner 0) 1)
    [EVM.op ADD; EVM.jump OutOfFunction] 1 = true /\
  @shouldInlineFullFunctionBody EVM.collaborators (withRuns (EVM.inliner 0) 200)
    [EVM.op ADD; EVM.jump OutOfFunction] 1 = true.
Proof.
  split; [reflexivity|].
  apply (@shouldInlineFullFunctionBody_monotone EVM.collaborators (EVM.inliner 0)
           [EVM.op ADD; EVM.jump OutOfFunction] 1 1 200); [lia | reflexivity].
Defined.

(** C2, as the specification states it, fails on a reference count whose
    deposit size leaves 64 bits: with 2^61 call sites of a block of one
    byte, the size without inlining, 2^61 * 8 + 2 + 1, is read as 3, and the
    code declines an inlining that the rule on exact integers approves. *)
Lemma shouldInlineFullFunctionBody_wraps :
  @shouldInlineFullFunctionBody EVM.collaborators (EVM.inliner 1)
    [EVM.op ADD; EVM.jump OutOfFunction] (2 ^ 61) = false /\
  @exactInlineRule EVM.collaborators (EVM.inliner 1)
    [EVM.op ADD; EVM.jump OutOfFunction] (2 ^ 61).
Proof. split; [vm_compute; reflexivity | vm_compute; reflexivity]. Qed.

Lemma EVM_fitsFixedWidth :
  @fitsFixedWidth EVM.collaborators (EVM.inliner 200)
    [EVM.op ADD; EVM.jump OutOfFunction] 1.
Proof.
  split.
  - intros item. unfold bytesRequired. simpl. unfold EVM.bytesRequired.
    destruct (type item); lia.
  - vm_compute. repeat split; intros; discriminate.
Defined.

Lemma shouldInlineFullFunctionBody_exact_witness :
  @fitsFixedWidth EVM.collaborators (EVM.inliner 200)
    [EVM.op ADD; EVM.jump OutOfFunction] 1 /\
  (@shouldInlineFullFunctionBody EVM.collaborators (EVM.inliner 200)
     [EVM.op ADD; EVM.jump OutOfFunction] 1 = true <->
   @exactInlineRule EVM.collaborators (EVM.inliner 200)
     [EVM.op ADD; EVM.jump OutOfFunction] 1).
Proof.
  split; [exact EVM_fitsFixedWidth|].
  apply (@shouldInlineFullFunctionBody_exact EVM.collaborators (EVM.inliner 200)
           [EVM.op ADD; EVM.jump OutOfFunction] 1).
  exact EVM_fitsFixedWidth.
Defined.

Lemma referenceCount_counts_PushTags_witness :
  exists blocks,
    @determineInlinableBlocks EVM.collaborators EVM.scenarioA = Ret blocks /\
    forall L block, blocks !! L = Some block ->
      pushTagCount block = Z.of_nat (pushTagOccurrences L EVM.scenarioA) /\
      (1 <= pushTagOccurrences L EVM.scenarioA)%nat.
Proof.
  apply (@referenceCount_counts_PushTags EVM.collaborators EVM.scenarioA).
  vm_compute. reflexivity.
Defined.

Lemma no_JUMP_unchanged_witness :
  @determineInlinableBlocks EVM.collaborators EVM.straight = Ret ∅ /\
  @optimise EVM.collaborators (EVM.inliner 200) EVM.straight = Ret EVM.straight.
Proof.
  apply (@no_JUMP_unchanged EVM.collaborators (EVM.inliner 200) EVM.straight).
  repeat constructor.
Defined.

Lemma inlined_copy_not_revisited_witness :
  exists s1,
    @loopIteration EVM.collaborators (EVM.inliner 200) EVM.callFirstStart = Ret s1 /\
    it s1 = [EVM.tag 1; EVM.op ADD; EVM.pushTag 2; EVM.jump OutOfFunction;
             EVM.tag 2; EVM.op ADD; EVM.jump OutOfFunction]%N /\
    newItems s1 = [] ++ update_back (setJumpType Ordinary)
                          [EVM.op ADD; EVM.pushTag 2%N; EVM.jump OutOfFunction] /\
    bodies (inlinableBlocks s1) = bodies EVM.callFirstBlocks /\
    forall fuel,
      @forLoop EVM.collaborators (EVM.inliner 200) (S fuel) EVM.callFirstStart =
      s' ← @forLoop EVM.collaborators (EVM.inliner 200) fuel
             {| it := [EVM.tag 1; EVM.op ADD; EVM.pushTag 2; EVM.jump OutOfFunction;
                       EVM.tag 2; EVM.op ADD; EVM.jump OutOfFunction]%N;
                newItems := []; inlinableBlocks := inlinableBlocks s1 |};
      Ret {| it := it s';
             newItems := [] ++ update_back (setJumpType Ordinary)
                                 [EVM.op ADD; EVM.pushTag 2%N; EVM.jump OutOfFunction] ++
                         newItems s';
             inlinableBlocks := inlinableBlocks s' |}.
Proof.
  apply (@inlined_copy_not_revisited EVM.collaborators (EVM.inliner 200)
           EVM.callFirstStart (EVM.pushTag 1%N) (EVM.jump IntoFunction) _
           {| items := [EVM.op ADD; EVM.pushTag 2%N; EVM.jump OutOfFunction];
              pushTagCount := 1 |} Ordinary);
    vm_compute; reflexivity.
Defined.


(** ** Runs for the further properties *)

Lemma single_call_site_inlined_witness :
  @shouldInlineFullFunctionBody EVM.collaborators (EVM.inliner 200)
    [EVM.op ADD; EVM.jump OutOfFunction] 1 = true.
Proof.
  apply (@single_call_site_inlined EVM.collaborators (EVM.inliner 200)
           [EVM.op ADD; EVM.jump OutOfFunction]).
  - simpl. lia.
  - intros x y Hxy Hy. simpl. unfold EVM.dataGas. lia.
  - vm_compute. reflexivity.
Defined.

Lemma executionCost_saturates_witness :
  @executionCost EVM.collaborators uninlinedCallSitePattern tt = 15.
Proof.
  rewrite (@executionCost_saturates EVM.collaborators uninlinedCallSitePattern tt).
  - vm_compute. reflexivity.
  - repeat (constructor; [vm_compute; discriminate|]). constructor.
Defined.

Lemma optimise_without_calls_witness :
  @optimise EVM.collaborators (EVM.inliner 200) EVM.ordinaryCall = Ret EVM.ordinaryCall.
Proof.
  apply (@optimise_without_calls EVM.collaborators (EVM.inliner 200) EVM.ordinaryCall).
  simpl. repeat split; intros (Ht & Hj & Hc); discriminate.
Defined.

Lemma pushTagCount_exact_witness :
  pushTagCount {| items := [EVM.op ADD; EVM.jump OutOfFunction]; pushTagCount := 2 |} =
  Z.of_nat (pushTagOccurrences 2%N
              (newItems EVM.callFirstNext ++ it EVM.callFirstNext)).
Proof.
  apply (@pushTagCount_exact EVM.collaborators (EVM.inliner 200) EVM.callFirst
           EVM.callFirstBlocks EVM.callFirstNext).
  - vm_compute. reflexivity.
  - vm_compute. reflexivity.
  - apply visits_next with EVM.callFirstStart;
      [apply visits_first | discriminate | vm_compute; reflexivity].
  - vm_compute. reflexivity.
Defined.

Lemma function_is_found_witness :
  exists blocks,
    @determineInlinableBlocks EVM.collaborators EVM.scenarioA = Ret blocks /\
    blocks !! 1%N =
    Some {| items := slice 1 3 EVM.scenarioA;
            pushTagCount := Z.of_nat (pushTagOccurrences 1%N EVM.scenarioA) |}.
Proof.
  apply (@function_is_found EVM.collaborators EVM.scenarioA 0 2
           (EVM.tag 1%N) (EVM.jump OutOfFunction)).
  - vm_compute. reflexivity.
  - reflexivity.
  - reflexivity.
  - lia.
  - intros j item Hj Hitem. assert (j = 1%nat) as -> by lia.
    injection Hitem as <-. split; [discriminate|reflexivity].
  - reflexivity.
  - reflexivity.
  - reflexivity.
  - reflexivity.
  - intros j item Hj Hitem Htag.
    destruct j as [|[|[|[|[|j]]]]]; try lia; try discriminate;
      injection Hitem as <-; discriminate.
  - discriminate.
Defined.

(** ** A run on which a counter wraps around *)











